(** * Metadata helpers of the operator toolkit: labels and annotations

    A shallow embedding of [metadata/metadata.go] and the proofs of its
    behavioural contract.

    Go maps are reference values, and the functions of the package mutate the
    maps they are handed, so the embedding keeps an explicit store: every map
    lives at a location, a [map[string]string] value is either [nil] or a
    location, and an object holds two such values.  Go leaves the order of a
    [range] over a map unspecified; every function that ranges takes the order
    as an extra argument, and the theorems hold for every order. *)

From stdpp Require Import gmap strings list fin_maps.

Local Open Scope string_scope.
Local Set Warnings "-clear-no-such-hyp".

(** ** Strings: the three functions of Go's [strings] and [len] that are used *)

Module Strings.

(** [s[n:]] *)
Fixpoint sliceFrom (n : nat) (s : string) : string :=
  match n, s with
  | O, _ => s
  | S _, EmptyString => EmptyString
  | S n', String _ s' => sliceFrom n' s'
  end.

(** [s[:n]] *)
Definition sliceTo (n : nat) (s : string) : string := String.substring 0 n s.

(** [strings.HasPrefix]:
    [len(s) >= len(prefix) && s[:len(prefix)] == prefix]. *)
Definition HasPrefix (s prefix : string) : bool :=
  (String.length prefix <=? String.length s)%nat
  && String.eqb (sliceTo (String.length prefix) s) prefix.

(** [strings.Index]: the position of the first occurrence of [substr] in
    [s]; [None] stands for Go's [-1]. *)
Fixpoint Index (s substr : string) : option nat :=
  if HasPrefix s substr then Some O
  else match s with
       | EmptyString => None
       | String _ s' => S <$> Index s' substr
       end.

(** [strings.Replace(s, old, new, 1)].  Go returns [s] itself when
    [old == new] or when [old] does not occur; otherwise it copies
    [s[:j]], then [new], then [s[j+len(old):]], where [j] is the first
    occurrence of [old] (position 0 when [old] is empty). *)
Definition Replace1 (s old new : string) : string :=
  if String.eqb old new then s
  else match Index s old with
       | None => s
       | Some j =>
           sliceTo j s +:+ new +:+ sliceFrom (j + String.length old) s
       end.

End Strings.

Export Strings.

(** ** The store *)

Definition loc := positive.

(** A value of type [map[string]string]: [None] is the nil map. *)
Definition mapref := option loc.

(** Modelled from the spec: the host object model, which the package only
    sees through [GetLabels], [SetLabels], [GetAnnotations] and
    [SetAnnotations] (§3 and §6: two independent slots, each absent until
    first written).  [ObjectMeta] holds the two slots. *)
Record ObjectMeta := mkObjectMeta {
  Labels : mapref;
  Annotations : mapref
}.

(** A value of interface type [v1.Object]: [None] is the nil interface,
    [Some p] a pointer to an object. *)
Definition Object := option loc.

(** The store: the maps and the objects that exist, by location. *)
Record Heap := mkHeap {
  maps : gmap loc (gmap string string);
  objs : gmap loc ObjectMeta
}.

(** A Go [error]: [None] is [nil], [Some msg] is [errors.New(msg)]. *)
Definition error := option string.

(** ** Computations: state passing, with the run-time panic as the failure *)

(** A call returns a value and the store it leaves, or panics. *)
Inductive result (A : Type) : Type :=
| Ok (a : A) (h : Heap)
| Panic.
Arguments Ok {A} a h.
Arguments Panic {A}.

Definition M (A : Type) : Type := Heap → result A.

Definition ret {A} (a : A) : M A := λ h, Ok a h.

Definition bind {A B} (c : M A) (k : A → M B) : M B :=
  λ h, match c h with
       | Ok a h' => k a h'
       | Panic => Panic
       end.

#[global] Instance M_ret : MRet M := @ret.
#[global] Instance M_bind : MBind M := λ A B k c, bind c k.

(** *** Maps in the store *)

(** The entries of a map value.  A nil map reads as the empty map. *)
Definition deref (h : Heap) (m : mapref) : gmap string string :=
  match m with
  | None => ∅
  | Some l => default ∅ (maps h !! l)
  end.

(** [map[string]string{}] and [make(map[string]string)]. *)
Definition newMap : M mapref :=
  λ h, let l := fresh (dom (maps h)) in
       Ok (Some l) (mkHeap (<[l := ∅]> (maps h)) (objs h)).

(** [_, ok := m[key]] *)
Definition mapHas (m : mapref) (key : string) : M bool :=
  λ h, Ok (bool_decide (is_Some (deref h m !! key))) h.

(** [len(m)] *)
Definition mapLen (m : mapref) : M nat :=
  λ h, Ok (size (deref h m)) h.

(** [m[key] = val]: an assignment to an entry of a nil map panics. *)
Definition mapStore (m : mapref) (key val : string) : M unit :=
  λ h, match m with
       | None => Panic
       | Some l =>
           match maps h !! l with
           | None => Panic
           | Some e => Ok tt (mkHeap (<[l := <[key := val]> e]> (maps h)) (objs h))
           end
       end.

(** *** [for key, val := range m { body }]

    The body answers [Some r] for a [return r] inside the loop and [None] to
    go on.  Go fixes neither the order of the entries nor whether an entry
    created during the loop is produced.  [order] lists the keys in the order
    in which the iterator reaches them; the keys the map had when the loop
    started are appended, so that each of them is produced.  A key is
    produced at most once, with the value it has when it is reached, and a
    key that is not in the map when it is reached is passed over. *)
Fixpoint rangeLoop {R} (m : mapref) (body : string → string → M (option R))
    (ks : list string) (seen : gset string) : M (option R) :=
  match ks with
  | [] => ret None
  | k :: ks' =>
      if decide (k ∈ seen) then rangeLoop m body ks' seen
      else λ h,
        match deref h m !! k with
        | None => rangeLoop m body ks' seen h
        | Some v =>
            match body k v h with
            | Panic => Panic
            | Ok (Some r) h' => Ok (Some r) h'
            | Ok None h' => rangeLoop m body ks' ({[k]} ∪ seen) h'
            end
        end
  end.

(** The loop over the map [m], the iterator reaching the keys of [order]
    first and then the keys [m] had at the start that are still to come. *)
Definition range {R} (m : mapref) (order : list string)
    (body : string → string → M (option R)) : M (option R) :=
  λ h, rangeLoop m body (order ++ (map_to_list (deref h m)).*1) ∅ h.

(** A loop whose body has no [return]. *)
Definition rangeDo (m : mapref) (order : list string)
    (body : string → string → M unit) : M unit :=
  range (R := Empty_set) m order (λ k v, body k v ;; ret None) ;; ret tt.

(** *** Objects in the store

    The four accessors of the host object (§6 of the specification).  A
    method call on a nil interface value is a run-time panic. *)

(** Modelled from the spec: the receiver of an accessor, read.  The host
    object model is not part of the package; a nil interface value has no
    receiver, and the call panics. *)
Definition getMeta (o : Object) : M ObjectMeta :=
  λ h, match o with
       | None => Panic
       | Some p => match objs h !! p with
                   | None => Panic
                   | Some meta => Ok meta h
                   end
       end.

(** Modelled from the spec: the receiver of an accessor, updated in
    place. *)
Definition setMeta (o : Object) (f : ObjectMeta → ObjectMeta) : M unit :=
  λ h, match o with
       | None => Panic
       | Some p => match objs h !! p with
                   | None => Panic
                   | Some meta => Ok tt (mkHeap (maps h) (<[p := f meta]> (objs h)))
                   end
       end.

(** Modelled from the spec: [GetAnnotations() -> MetadataMap-or-absent]. *)
Definition GetAnnotations (o : Object) : M mapref :=
  meta ← getMeta o; ret (Annotations meta).

(** Modelled from the spec: [SetAnnotations(MetadataMap)]. *)
Definition SetAnnotations (o : Object) (m : mapref) : M unit :=
  setMeta o (λ meta, mkObjectMeta (Labels meta) m).

(** Modelled from the spec: [GetLabels() -> MetadataMap-or-absent]. *)
Definition GetLabels (o : Object) : M mapref :=
  meta ← getMeta o; ret (Labels meta).

(** Modelled from the spec: [SetLabels(MetadataMap)]. *)
Definition SetLabels (o : Object) (m : mapref) : M unit :=
  setMeta o (λ meta, mkObjectMeta m (Annotations meta)).

(** ** The package *)

Definition NilObjectError : string := "object cannot be nil".

(** [safeCopy]: copy the pair unless the key is already there. *)
Definition safeCopy (destination : mapref) (key val : string) : M unit :=
  ok ← mapHas destination key;
  if negb ok then mapStore destination key val else ret tt.

(** [addEntries] *)
Definition addEntries (source destination : mapref) (order : list string) : M unit :=
  rangeDo source order (λ key val, safeCopy destination key val).

(** [filterByPrefix] *)
Definition filterByPrefix (entries : mapref) (prefix : string)
    (order : list string) : M mapref :=
  if (String.length prefix =? 0)%nat then ret entries
  else
    dst ← newMap;
    rangeDo entries order (λ key val,
      if HasPrefix key prefix then mapStore dst key val else ret tt) ;;
    ret dst.

(** [copyWithNewPrefix] *)
Definition copyWithNewPrefix (src dest : mapref) (prefix replacementPrefix : string)
    (order : list string) : M unit :=
  rangeDo src order (λ key value,
    if HasPrefix key prefix then
      let newKey :=
        if negb (String.eqb prefix replacementPrefix)
        then Replace1 key prefix replacementPrefix
        else key in
      mapStore dest newKey value
    else ret tt).

(** [GetAnnotationsWithPrefix] *)
Definition GetAnnotationsWithPrefix (obj : Object) (prefix : string)
    (order : list string) : M (mapref * error) :=
  match obj with
  | None => m ← newMap; ret (m, Some NilObjectError)
  | Some _ =>
      entries ← GetAnnotations obj;
      m ← filterByPrefix entries prefix order;
      ret (m, None)
  end.

(** [GetLabelsWithPrefix] *)
Definition GetLabelsWithPrefix (obj : Object) (prefix : string)
    (order : list string) : M (mapref * error) :=
  match obj with
  | None => m ← newMap; ret (m, Some NilObjectError)
  | Some _ =>
      entries ← GetLabels obj;
      m ← filterByPrefix entries prefix order;
      ret (m, None)
  end.

(** [HasAnnotation] *)
Definition HasAnnotation (object : Object) (key : string)
    (order : list string) : M bool :=
  '(annotations, err) ← GetAnnotationsWithPrefix object key order;
  n ← mapLen annotations;
  if bool_decide (err ≠ None) || (n =? 0)%nat then ret false else ret true.

(** [HasLabel] *)
Definition HasLabel (object : Object) (key : string)
    (order : list string) : M bool :=
  '(labels, err) ← GetLabelsWithPrefix object key order;
  n ← mapLen labels;
  if bool_decide (err ≠ None) || (n =? 0)%nat then ret false else ret true.

(** The loop shared by the two [...WithValue] queries:
    [for _, val := range m { if val == value { return true } }]. *)
Definition findValue (m : mapref) (value : string) (order : list string)
    : M (option bool) :=
  range m order (λ _ val, if String.eqb val value then ret (Some true) else ret None).

(** [HasAnnotationWithValue] *)
Definition HasAnnotationWithValue (object : Object) (key value : string)
    (order order' : list string) : M bool :=
  '(annotations, err) ← GetAnnotationsWithPrefix object key order;
  match err with
  | None =>
      r ← findValue annotations value order';
      match r with
      | Some b => ret b
      | None => ret false
      end
  | Some _ => ret false
  end.

(** [HasLabelWithValue] *)
Definition HasLabelWithValue (object : Object) (key value : string)
    (order order' : list string) : M bool :=
  '(labels, err) ← GetLabelsWithPrefix object key order;
  match err with
  | None =>
      r ← findValue labels value order';
      match r with
      | Some b => ret b
      | None => ret false
      end
  | Some _ => ret false
  end.

(** [AddAnnotations] *)
Definition AddAnnotations (obj : Object) (entries : mapref)
    (order : list string) : M error :=
  match obj with
  | None => ret (Some NilObjectError)
  | Some _ =>
      cur ← GetAnnotations obj;
      (match cur with
       | None => m ← newMap; SetAnnotations obj m
       | Some _ => ret tt
       end) ;;
      destination ← GetAnnotations obj;
      addEntries entries destination order ;;
      ret None
  end.

(** [AddLabels] *)
Definition AddLabels (obj : Object) (entries : mapref)
    (order : list string) : M error :=
  match obj with
  | None => ret (Some NilObjectError)
  | Some _ =>
      cur ← GetLabels obj;
      (match cur with
       | None => m ← newMap; SetLabels obj m
       | Some _ => ret tt
       end) ;;
      destination ← GetLabels obj;
      addEntries entries destination order ;;
      ret None
  end.

(** [AddAnnotation]: the error of [AddAnnotations] is dropped. *)
Definition AddAnnotation (object : Object) (key value : string)
    (order : list string) : M unit :=
  annotations ← newMap;
  mapStore annotations key value ;;
  AddAnnotations object annotations order ;;
  ret tt.

(** [AddLabel]: the error of [AddLabels] is dropped. *)
Definition AddLabel (object : Object) (key value : string)
    (order : list string) : M unit :=
  labels ← newMap;
  mapStore labels key value ;;
  AddLabels object labels order ;;
  ret tt.

(** [CopyLabelsByPrefix] *)
Definition CopyLabelsByPrefix (src dest : Object) (prefix replacementPrefix : string)
    (order : list string) : M unit :=
  s ← GetLabels src;
  match s with
  | None => ret tt
  | Some _ =>
      d ← GetLabels dest;
      (match d with
       | None => m ← newMap; SetLabels dest m
       | Some _ => ret tt
       end) ;;
      s' ← GetLabels src;
      d' ← GetLabels dest;
      copyWithNewPrefix s' d' prefix replacementPrefix order
  end.

(** [CopyAnnotationsByPrefix] *)
Definition CopyAnnotationsByPrefix (src dest : Object) (prefix replacementPrefix : string)
    (order : list string) : M unit :=
  s ← GetAnnotations src;
  match s with
  | None => ret tt
  | Some _ =>
      d ← GetAnnotations dest;
      (match d with
       | None => m ← newMap; SetAnnotations dest m
       | Some _ => ret tt
       end) ;;
      s' ← GetAnnotations src;
      d' ← GetAnnotations dest;
      copyWithNewPrefix s' d' prefix replacementPrefix order
  end.

(** ** Pods for the tests and the examples *)

(** One pod, at object 1, with its labels in map 1 and its annotations in
    map 2. *)
Definition pod (labels annotations : list (string * string)) : Heap :=
  mkHeap {[ 1%positive := list_to_map labels; 2%positive := list_to_map annotations ]}
         {[ 1%positive := mkObjectMeta (Some 1%positive) (Some 2%positive) ]}.

(** [&corev1.Pod{}]: both slots are nil. *)
Definition emptyPod : Heap :=
  mkHeap ∅ {[ 1%positive := mkObjectMeta None None ]}.

(** Two pods, at objects 1 and 2, without labels, with their annotations
    in maps 1 and 2. *)
Definition pods (annotations1 annotations2 : list (string * string)) : Heap :=
  mkHeap {[ 1%positive := list_to_map annotations1; 2%positive := list_to_map annotations2 ]}
         {[ 1%positive := mkObjectMeta None (Some 1%positive);
            2%positive := mkObjectMeta None (Some 2%positive) ]}.

(** The first pod with annotations [foo=bar, foz=qux], the second with
    annotation [bao=old]. *)
Definition twoPods : Heap :=
  pods [("foo", "bar"); ("foz", "qux")] [("bao", "old")].

(** The annotations of the object at [p] after a call. *)
Definition annotationsOf {A} (p : loc) (r : result A) : option (gmap string string) :=
  match r with
  | Ok _ h => meta ← objs h !! p; Some (deref h (Annotations meta))
  | Panic => None
  end.

(** What a call returned. *)
Definition returned {A} (r : result A) : option A :=
  match r with
  | Ok a _ => Some a
  | Panic => None
  end.

(** ** Definitions used to state the contract *)

(** The store [h] with the map at [l] set to [e]. *)
Definition setMap (h : Heap) (l : loc) (e : gmap string string) : Heap :=
  mkHeap (<[l := e]> (maps h)) (objs h).

(** The entries of [s] whose key is in [X]. *)
Definition restrict (X : gset string) (s : gmap string string) : gmap string string :=
  filter (λ kv, kv.1 ∈ X) s.

(** The entries of [s] whose key starts with [prefix]. *)
Definition prefixed (prefix : string) (s : gmap string string) : gmap string string :=
  filter (λ kv, HasPrefix kv.1 prefix = true) s.

(** The key under which [copyWithNewPrefix] stores the value of [key]. *)
Definition renamed (prefix replacementPrefix key : string) : string :=
  if negb (String.eqb prefix replacementPrefix)
  then Replace1 key prefix replacementPrefix
  else key.

(** What a prefix copy of the entries [s], restricted to the keys in [X],
    makes of the destination [d]: every such entry whose key starts with the
    prefix is found under its new key, and every other key of the
    destination is as it was. *)
Definition CopiedOn (X : gset string) (prefix replacementPrefix : string)
    (s d d' : gmap string string) : Prop :=
  (∀ k v, k ∈ X → s !! k = Some v → HasPrefix k prefix = true →
     d' !! renamed prefix replacementPrefix k = Some v)
  ∧ (∀ k', (∀ k, k ∈ X → is_Some (s !! k) → HasPrefix k prefix = true →
              renamed prefix replacementPrefix k ≠ k') →
     d' !! k' = d !! k').

(** The same for all the entries of [s]. *)
Definition Copied (prefix replacementPrefix : string)
    (s d d' : gmap string string) : Prop :=
  (∀ k v, s !! k = Some v → HasPrefix k prefix = true →
     d' !! renamed prefix replacementPrefix k = Some v)
  ∧ (∀ k', (∀ k, is_Some (s !! k) → HasPrefix k prefix = true →
              renamed prefix replacementPrefix k ≠ k') →
     d' !! k' = d !! k').

(** Each exported function exists twice, once for the labels and once for
    the annotations, with the same body up to the accessor.  The facts are
    proved once, for a slot; the definitions below select the function of
    the package for the slot. *)
Inductive slot : Type := SlotLabels | SlotAnnotations.

Definition slotOf (sl : slot) (meta : ObjectMeta) : mapref :=
  match sl with
  | SlotLabels => Labels meta
  | SlotAnnotations => Annotations meta
  end.

Definition withSlot (sl : slot) (m : mapref) (meta : ObjectMeta) : ObjectMeta :=
  match sl with
  | SlotLabels => mkObjectMeta m (Annotations meta)
  | SlotAnnotations => mkObjectMeta (Labels meta) m
  end.

Definition getWithPrefix (sl : slot) :=
  match sl with
  | SlotLabels => GetLabelsWithPrefix
  | SlotAnnotations => GetAnnotationsWithPrefix
  end.

Definition has (sl : slot) :=
  match sl with
  | SlotLabels => HasLabel
  | SlotAnnotations => HasAnnotation
  end.

Definition hasWithValue (sl : slot) :=
  match sl with
  | SlotLabels => HasLabelWithValue
  | SlotAnnotations => HasAnnotationWithValue
  end.

Definition addAll (sl : slot) :=
  match sl with
  | SlotLabels => AddLabels
  | SlotAnnotations => AddAnnotations
  end.

Definition addOne (sl : slot) :=
  match sl with
  | SlotLabels => AddLabel
  | SlotAnnotations => AddAnnotation
  end.

Definition copyByPrefix (sl : slot) :=
  match sl with
  | SlotLabels => CopyLabelsByPrefix
  | SlotAnnotations => CopyAnnotationsByPrefix
  end.

(** A map value of the store refers to a map that exists: Go has no
    dangling references. *)
Definition validRef (h : Heap) (m : mapref) : Prop :=
  match m with
  | None => True
  | Some l => is_Some (maps h !! l)
  end.

(** The store just before [copyWithNewPrefix] is called: the destination
    slot has been created when it was nil. *)
Definition prepared (sl : slot) (pd : loc) (md : ObjectMeta) (h : Heap) : loc * Heap :=
  match slotOf sl md with
  | Some ld => (ld, h)
  | None =>
      let l := fresh (dom (maps h)) in
      (l, mkHeap (<[l := ∅]> (maps h)) (<[pd := withSlot sl (Some l) md]> (objs h)))
  end.

(** Every map of [h] is still there in [h'], related by [P] to what it
    was. *)
Definition kept (P : relation (gmap string string)) (h h' : Heap) : Prop :=
  ∀ l e, maps h !! l = Some e → ∃ e', maps h' !! l = Some e' ∧ P e e'.

(** The computation, when it returns, keeps every map in that sense. *)
Definition preserving (P : relation (gmap string string)) {A} (c : M A) : Prop :=
  ∀ h a h', c h = Ok a h' → kept P h h'.

(** The keys of [e] are keys of [e']. *)
Definition keysIn : relation (gmap string string) := λ e e', dom e ⊆ dom e'.

(** A call of an exported function, with its arguments. *)
Inductive Call : Type :=
| CallHasAnnotation (object : Object) (key : string) (order : list string)
| CallHasLabel (object : Object) (key : string) (order : list string)
| CallHasAnnotationWithValue (object : Object) (key value : string) (order order' : list string)
| CallHasLabelWithValue (object : Object) (key value : string) (order order' : list string)
| CallAddAnnotation (object : Object) (key value : string) (order : list string)
| CallAddLabel (object : Object) (key value : string) (order : list string)
| CallAddAnnotations (obj : Object) (entries : mapref) (order : list string)
| CallAddLabels (obj : Object) (entries : mapref) (order : list string)
| CallGetAnnotationsWithPrefix (obj : Object) (prefix : string) (order : list string)
| CallGetLabelsWithPrefix (obj : Object) (prefix : string) (order : list string)
| CallCopyLabelsByPrefix (src dest : Object) (prefix replacementPrefix : string)
    (order : list string)
| CallCopyAnnotationsByPrefix (src dest : Object) (prefix replacementPrefix : string)
    (order : list string).

(** The two prefix copies. *)
Definition isCopy (c : Call) : bool :=
  match c with
  | CallCopyLabelsByPrefix _ _ _ _ _ | CallCopyAnnotationsByPrefix _ _ _ _ _ => true
  | _ => false
  end.

Definition heapAfter {A} (r : result A) : option Heap :=
  match r with
  | Ok _ h => Some h
  | Panic => None
  end.

(** The store after a call that returns. *)
Definition exec (c : Call) (h : Heap) : option Heap :=
  match c with
  | CallHasAnnotation o k ord => heapAfter (HasAnnotation o k ord h)
  | CallHasLabel o k ord => heapAfter (HasLabel o k ord h)
  | CallHasAnnotationWithValue o k v ord ord' => heapAfter (HasAnnotationWithValue o k v ord ord' h)
  | CallHasLabelWithValue o k v ord ord' => heapAfter (HasLabelWithValue o k v ord ord' h)
  | CallAddAnnotation o k v ord => heapAfter (AddAnnotation o k v ord h)
  | CallAddLabel o k v ord => heapAfter (AddLabel o k v ord h)
  | CallAddAnnotations o m ord => heapAfter (AddAnnotations o m ord h)
  | CallAddLabels o m ord => heapAfter (AddLabels o m ord h)
  | CallGetAnnotationsWithPrefix o p ord => heapAfter (GetAnnotationsWithPrefix o p ord h)
  | CallGetLabelsWithPrefix o p ord => heapAfter (GetLabelsWithPrefix o p ord h)
  | CallCopyLabelsByPrefix s d p r ord => heapAfter (CopyLabelsByPrefix s d p r ord h)
  | CallCopyAnnotationsByPrefix s d p r ord => heapAfter (CopyAnnotationsByPrefix s d p r ord h)
  end.

(** No entry of any map is removed or overwritten by the call. *)
Definition NoClobber (c : Call) (h : Heap) : Prop :=
  ∀ h', exec c h = Some h' →
  ∀ l e k v, maps h !! l = Some e → e !! k = Some v →
  ∃ e', maps h' !! l = Some e' ∧ e' !! k = Some v.

(** After [AddAnnotation(O, k, v)], [HasAnnotationWithValue(O, k, v)]
    answers [true]. *)
Definition AddThenHas (h : Heap) (O : Object) (k v : string)
    (order order1 order2 : list string) : Prop :=
  ∃ h1 h2, AddAnnotation O k v order h = Ok tt h1
           ∧ HasAnnotationWithValue O k v order1 order2 h1 = Ok true h2.

(** An existence query: it returns, and answers [true] exactly for a
    non-nil object that stores a key [k] with [matches k key]. *)
Definition ExistenceQuery (matches : string → string → bool)
    (query : Object → string → list string → M bool) (get : ObjectMeta → mapref)
    (h : Heap) (object : Object) (key : string) (order : list string) : Prop :=
  ∃ b h', query object key order h = Ok b h'
          ∧ (b = true ↔ ∃ p meta k v, object = Some p ∧ objs h !! p = Some meta
                                       ∧ deref h (get meta) !! k = Some v
                                       ∧ matches k key = true).

(** An object value is nil or points to an object. *)
Definition validObject (h : Heap) (o : Object) : Prop :=
  match o with
  | None => True
  | Some p => is_Some (objs h !! p)
  end.

(** Every object and every map of [h] is in [h'] as it was. *)
Definition Untouched (h h' : Heap) : Prop :=
  objs h' = objs h ∧ maps h ⊆ maps h'.

(** The computation returns [dflt] and touches nothing. *)
Definition Swallows {A} (c : M A) (dflt : A) (h : Heap) : Prop :=
  ∃ h', c h = Ok dflt h' ∧ Untouched h h'.

(** What a prefix copy does about a missing slot or object: between two
    live objects it runs to its end, and from an object whose slot is nil it
    does nothing, whatever the destination. *)
Definition CopyTotal (copy : Object → Object → string → string → list string → M unit)
    (get : ObjectMeta → mapref) (h : Heap) (prefix replacementPrefix : string)
    (order : list string) : Prop :=
  (∀ ps pd ms md, objs h !! ps = Some ms → objs h !! pd = Some md →
     validRef h (get md) →
     ∃ h', copy (Some ps) (Some pd) prefix replacementPrefix order h = Ok tt h')
  ∧ (∀ ps ms dest, objs h !! ps = Some ms → get ms = None →
       copy (Some ps) dest prefix replacementPrefix order h = Ok tt h).

(** The prefix read returns some map, never the nil map. *)
Definition ReturnsMap (get : Object → string → list string → M (mapref * error))
    (h : Heap) (obj : Object) (prefix : string) (order : list string) : Prop :=
  ∃ l err h', get obj prefix order h = Ok (Some l, err) h'.

(** What a prefix read returns.  On the nil object: a new, empty map and
    the error.  On a live object, with the empty prefix: the map value of the
    slot itself (nil when the slot is nil), the store being as it was; with
    another prefix: a new map that holds the entries of the slot whose key
    starts with the prefix, and no others. *)
Definition PrefixRead (get : Object → string → list string → M (mapref * error))
    (slotget : ObjectMeta → mapref)
    (h : Heap) (obj : Object) (prefix : string) (order : list string) : Prop :=
  match obj with
  | None =>
      ∃ l, (l ∉ dom (maps h))
           ∧ get obj prefix order h = Ok (Some l, Some NilObjectError) (setMap h l ∅)
  | Some p =>
      ∀ meta, objs h !! p = Some meta →
        if decide (prefix = "")
        then get obj prefix order h = Ok (slotget meta, None) h
        else ∃ l e', (l ∉ dom (maps h))
                     ∧ get obj prefix order h = Ok (Some l, None) (setMap h l e')
                     ∧ ∀ k, e' !! k = if HasPrefix k prefix
                                      then deref h (slotget meta) !! k
                                      else None
  end.

(** What a prefix copy makes of the destination, for a source object with
    meta data [ms] and a destination object with meta data [md]: nothing when
    the slot of the source is nil; otherwise the slot of the destination is
    the map it was, or a new map when it was nil, and that map holds the
    copied entries over what the slot held before. *)
Definition CopyOutcome (sl : slot) (h : Heap) (ps pd : loc) (ms md : ObjectMeta)
    (prefix replacementPrefix : string) (order : list string) : Prop :=
  match slotOf sl ms with
  | None =>
      copyByPrefix sl (Some ps) (Some pd) prefix replacementPrefix order h = Ok tt h
  | Some ls =>
      ∃ h' ld d',
        copyByPrefix sl (Some ps) (Some pd) prefix replacementPrefix order h = Ok tt h'
        ∧ objs h' = <[pd := withSlot sl (Some ld) md]> (objs h)
        ∧ maps h' = <[ld := d']> (maps h)
        ∧ (slotOf sl md = Some ld ∨ slotOf sl md = None ∧ ld ∉ dom (maps h))
        ∧ Copied prefix replacementPrefix (deref h (Some ls)) (deref h (slotOf sl md)) d'
  end.

(** The outcome, for every pair of objects. *)
Definition CopyByPrefixClaim (sl : slot) (h : Heap) (ps pd : loc)
    (prefix replacementPrefix : string) (order : list string) : Prop :=
  ∀ ms md, objs h !! ps = Some ms → objs h !! pd = Some md →
           CopyOutcome sl h ps pd ms md prefix replacementPrefix order.

(** What a prefix copy with the empty prefix makes of the destination:
    every entry of the source is found under the replacement prefix put
    before its key, and every other key of the destination is as it was. *)
Definition PrependOutcome (sl : slot) (h : Heap) (ps pd ls : loc) (md : ObjectMeta)
    (replacementPrefix : string) (order : list string) : Prop :=
  ∃ h' ld d',
    copyByPrefix sl (Some ps) (Some pd) "" replacementPrefix order h = Ok tt h'
    ∧ objs h' = <[pd := withSlot sl (Some ld) md]> (objs h)
    ∧ maps h' = <[ld := d']> (maps h)
    ∧ (∀ k v, deref h (Some ls) !! k = Some v → d' !! (replacementPrefix +:+ k) = Some v)
    ∧ (∀ k', (∀ k, is_Some (deref h (Some ls) !! k) → replacementPrefix +:+ k ≠ k') →
             d' !! k' = deref h (slotOf sl md) !! k').

(** The outcome, for every pair of objects whose source has the slot. *)
Definition PrependClaim (sl : slot) (h : Heap) (ps pd : loc)
    (replacementPrefix : string) (order : list string) : Prop :=
  ∀ ms md ls, objs h !! ps = Some ms → objs h !! pd = Some md →
              slotOf sl ms = Some ls → replacementPrefix ≠ "" →
              PrependOutcome sl h ps pd ls md replacementPrefix order.

(** An object value is nil, or points to an object whose two slots are nil
    or maps that exist. *)
Definition liveOrNil (h : Heap) (o : Object) : Prop :=
  match o with
  | None => True
  | Some p => ∃ meta, objs h !! p = Some meta
                      ∧ validRef h (Labels meta) ∧ validRef h (Annotations meta)
  end.

(** The bulk add returns; its error is the nil-object error on the nil
    object and nil on every other. *)
Definition ErrorIffNil (add : Object → mapref → list string → M error)
    (h : Heap) (obj : Object) (entries : mapref) (order : list string) : Prop :=
  ∃ err h', add obj entries order h = Ok err h'
            ∧ (obj = None → err = Some "object cannot be nil")
            ∧ (obj ≠ None → err = None).

(** What a bulk add makes of the slot of a live object: the entries that
    were there are as they were, the entries of the added map whose key was
    not there are there, and the sizes add up. *)
Definition MergeOutcome (add : Object → mapref → list string → M error)
    (get : ObjectMeta → mapref)
    (h : Heap) (p : loc) (meta : ObjectMeta) (entries : mapref) (order : list string) : Prop :=
  ∃ h' meta',
    add (Some p) entries order h = Ok None h'
    ∧ objs h' !! p = Some meta'
    ∧ (∀ k v, deref h (get meta) !! k = Some v → deref h' (get meta') !! k = Some v)
    ∧ (∀ k v, deref h entries !! k = Some v → deref h (get meta) !! k = None →
              deref h' (get meta') !! k = Some v)
    ∧ size (deref h' (get meta'))
      = size (deref h (get meta)) + size (deref h entries)
        - size (dom (deref h (get meta)) ∩ dom (deref h entries)).

(** The existence query with the empty key returns, leaves the store as it
    is, and answers [true] exactly when the slot holds an entry. *)
Definition EmptyKeyQuery (query : Object → string → list string → M bool)
    (get : ObjectMeta → mapref)
    (h : Heap) (p : loc) (meta : ObjectMeta) (order : list string) : Prop :=
  ∃ b, query (Some p) "" order h = Ok b h ∧ (b = true ↔ deref h (get meta) ≠ ∅).

(** ** The tests of the package, run on the embedding *)

Example test_AddAnnotation :
  annotationsOf 1%positive (AddAnnotation (Some 1%positive) "foo" "bar" [] emptyPod)
  = Some {[ "foo" := "bar" ]}.
Proof. vm_compute. reflexivity. Qed.

Example test_AddAnnotations_existing :
  annotationsOf 1%positive
    (AddAnnotations (Some 1%positive) (Some 2%positive) []
       (pods [("quux", "corge")] [("foo", "bar"); ("baz", "qux")]))
  = Some (list_to_map [("quux", "corge"); ("foo", "bar"); ("baz", "qux")]).
Proof. vm_compute. reflexivity. Qed.

Example test_AddAnnotations_nil :
  returned (AddAnnotations None (Some 1%positive) [] (pods [] []))
  = Some (Some "object cannot be nil").
Proof. reflexivity. Qed.

Example test_HasAnnotationWithValue :
  let h := pod [] [("bar", "foo"); ("baz", "qux")] in
  returned (HasAnnotation (Some 1%positive) "bar" [] h) = Some true
  ∧ returned (HasAnnotationWithValue (Some 1%positive) "bar" "foo" [] [] h) = Some true
  ∧ returned (HasAnnotation (Some 1%positive) "nobar" [] h) = Some false
  ∧ returned (HasAnnotationWithValue (Some 1%positive) "bar" "nofoo" [] [] h) = Some false.
Proof. vm_compute. done. Qed.

Example test_copyWithNewPrefix :
  heapAfter (copyWithNewPrefix (Some 1%positive) (Some 2%positive) "fo" "ba" []
               (pods [("foo", "bar"); ("foz", "qux")] [("quux", "corge")]))
  = Some (pods [("foo", "bar"); ("foz", "qux")]
               [("bao", "bar"); ("baz", "qux"); ("quux", "corge")]).
Proof. vm_compute. reflexivity. Qed.

Example test_CopyAnnotationsByPrefix :
  annotationsOf 2%positive
    (CopyAnnotationsByPrefix (Some 1%positive) (Some 2%positive) "fo" "ba" []
       (pods [("foo", "bar"); ("baz", "qux")] [("quux", "corge")]))
  = Some (list_to_map [("bao", "bar"); ("quux", "corge")]).
Proof. vm_compute. reflexivity. Qed.

Example test_Replace1 :
  Replace1 "foofoo" "fo" "ba" = "baofoo" ∧ Replace1 "xfoo" "fo" "ba" = "xbao"
  ∧ Replace1 "abc" "" "zz" = "zzabc" ∧ Replace1 "abc" "q" "zz" = "abc".
Proof. done. Qed.

(** ** Facts about the string functions *)

Section StringFacts.

Lemma length_zero_empty (s : string) :
  (String.length s =? 0)%nat = true ↔ s = "".
Proof.
  destruct s; simpl; split; intros H; try done.
Qed.

Lemma append_cons (c : Ascii.ascii) (s r : string) :
  String c s +:+ r = String c (s +:+ r).
Proof. reflexivity. Qed.

Lemma sliceTo_app (p r : string) : sliceTo (String.length p) (p +:+ r) = p.
Proof.
  unfold sliceTo. induction p as [|c p IH]; simpl.
  - by destruct r.
  - by rewrite IH.
Qed.

Lemma sliceFrom_app (p r : string) : sliceFrom (String.length p) (p +:+ r) = r.
Proof. induction p as [|c p IH]; simpl; [by destruct r | done]. Qed.

Lemma slice_split (n : nat) (s : string) :
  (n ≤ String.length s)%nat → s = sliceTo n s +:+ sliceFrom n s.
Proof.
  unfold sliceTo. revert s. induction n as [|n IH]; intros s Hn.
  - by destruct s.
  - destruct s as [|c s]; simpl in *; [lia|].
    change (String c s = String c (String.substring 0 n s +:+ sliceFrom n s)).
    f_equal. apply IH. lia.
Qed.

Lemma length_app (p r : string) :
  String.length (p +:+ r) = (String.length p + String.length r)%nat.
Proof. induction p as [|c p IH]; simpl; [done | by rewrite IH]. Qed.

(** [HasPrefix] is the prefix relation on strings. *)
Lemma HasPrefix_spec (s prefix : string) :
  HasPrefix s prefix = true ↔ ∃ rest, s = prefix +:+ rest.
Proof.
  unfold HasPrefix. rewrite andb_true_iff, Nat.leb_le, String.eqb_eq. split.
  - intros [Hlen Heq]. exists (sliceFrom (String.length prefix) s).
    rewrite <- Heq at 1. by apply slice_split.
  - intros [rest ->]. rewrite length_app, sliceTo_app. split; [lia | done].
Qed.

Lemma HasPrefix_drop (s prefix : string) :
  HasPrefix s prefix = true →
  s = prefix +:+ sliceFrom (String.length prefix) s.
Proof.
  intros [rest ->]%HasPrefix_spec. by rewrite sliceFrom_app.
Qed.

Lemma HasPrefix_empty (s : string) : HasPrefix s "" = true.
Proof. apply HasPrefix_spec. by exists s. Qed.

Lemma HasPrefix_refl (s : string) : HasPrefix s s = true.
Proof.
  apply HasPrefix_spec. exists "".
  induction s as [|c s IH]; [done | rewrite append_cons; congruence].
Qed.

Lemma app_inv_head (p r1 r2 : string) : p +:+ r1 = p +:+ r2 → r1 = r2.
Proof. induction p as [|c p IH]; simpl; [done|]. intros [= H]. auto. Qed.

(** A key that starts with [old] has its first occurrence of [old] at
    position 0, so replacing it swaps the prefix. *)
Lemma Replace1_prefix (s old new : string) :
  HasPrefix s old = true →
  Replace1 s old new = new +:+ sliceFrom (String.length old) s.
Proof.
  intros Hp. unfold Replace1.
  destruct (String.eqb_spec old new) as [<-|Hne].
  - by apply HasPrefix_drop.
  - assert (Index s old = Some 0) as ->.
    { destruct s; simpl; by rewrite Hp. }
    unfold sliceTo. simpl. by destruct s.
Qed.

End StringFacts.

(** ** Reasoning about computations *)

Lemma bind_Ok {A B} (c : M A) (k : A → M B) (h h' : Heap) (a : A) :
  c h = Ok a h' → (c ≫= k) h = k a h'.
Proof. intros H. unfold mbind, M_bind, bind. by rewrite H. Qed.

Lemma bind_inv {A B} (c : M A) (k : A → M B) (h h2 : Heap) (b : B) :
  (c ≫= k) h = Ok b h2 → ∃ a h1, c h = Ok a h1 ∧ k a h1 = Ok b h2.
Proof.
  unfold mbind, M_bind, bind. destruct (c h) as [a h1|]; [eauto | done].
Qed.

Lemma setMap_id (h : Heap) (l : loc) (e : gmap string string) :
  maps h !! l = Some e → setMap h l e = h.
Proof. intros H. destruct h as [ms os]. unfold setMap. simpl in *. by rewrite insert_id. Qed.

Lemma setMap_setMap (h : Heap) (l : loc) (e e' : gmap string string) :
  setMap (setMap h l e) l e' = setMap h l e'.
Proof. unfold setMap. simpl. by rewrite insert_insert_eq. Qed.

Lemma deref_setMap_eq (h : Heap) (l : loc) (e : gmap string string) :
  deref (setMap h l e) (Some l) = e.
Proof. unfold deref, setMap. simpl. by rewrite lookup_insert_eq. Qed.

Lemma deref_setMap_ne (h : Heap) (l : loc) (e : gmap string string) (m : mapref) :
  m ≠ Some l → deref (setMap h l e) m = deref h m.
Proof.
  intros Hne. destruct m as [l'|]; [|done]. unfold deref, setMap. simpl.
  rewrite lookup_insert_ne; [done | congruence].
Qed.

Lemma mapStore_setMap (h : Heap) (l : loc) (e : gmap string string) (k v : string) :
  maps h !! l = Some e →
  mapStore (Some l) k v h = Ok tt (setMap h l (<[k := v]> e)).
Proof. intros H. unfold mapStore. by rewrite H. Qed.

Lemma keys_dom (s : gmap string string) :
  list_to_set ((map_to_list s).*1) = dom s.
Proof.
  apply set_eq. intros k. rewrite elem_of_list_to_set, elem_of_dom, list_elem_of_fmap.
  split.
  - intros [[k' v] [-> Hin]]. apply elem_of_map_to_list in Hin. by exists v.
  - intros [v Hv]. exists (k, v). split; [done|]. by apply elem_of_map_to_list.
Qed.

Section Range.
Context {R : Type} (m : mapref) (body : string → string → M (option R)).

(** A loop whose body keeps an invariant and never returns runs to its
    end, whatever the order and whatever the body does to the map. *)
Lemma rangeLoop_inv (Inv : Heap → Prop) :
  (∀ h k v, Inv h → deref h m !! k = Some v →
     ∃ h', body k v h = Ok None h' ∧ Inv h') →
  ∀ ks seen h, Inv h →
     ∃ h', rangeLoop m body ks seen h = Ok None h' ∧ Inv h'.
Proof.
  intros Hbody ks. induction ks as [|k ks IH]; intros seen h HI; simpl.
  - by exists h.
  - destruct (decide (k ∈ seen)); [by apply IH|].
    destruct (deref h m !! k) as [v|] eqn:Hk; [|by apply IH].
    destruct (Hbody h k v HI Hk) as (h' & -> & HI'). by apply IH.
Qed.

(** A loop whose body leaves the map it ranges over as it is produces
    exactly the entries of that map, each once. *)
Lemma rangeLoop_stable (s : gmap string string) (Inv : gset string → Heap → Prop) :
  (∀ seen h k v, Inv seen h → deref h m = s → k ∉ seen → s !! k = Some v →
     ∃ h', body k v h = Ok None h' ∧ Inv ({[k]} ∪ seen) h' ∧ deref h' m = s) →
  ∀ ks seen h, Inv seen h → deref h m = s →
     ∃ h', rangeLoop m body ks seen h = Ok None h'
           ∧ Inv (seen ∪ (list_to_set ks ∩ dom s)) h' ∧ deref h' m = s.
Proof.
  intros Hbody ks. induction ks as [|k ks IH]; intros seen h HI Hs; simpl.
  - exists h. split; [done|]. split; [|done].
    replace (seen ∪ (∅ ∩ dom s)) with seen by set_solver. done.
  - destruct (decide (k ∈ seen)) as [Hin|Hnin].
    { destruct (IH seen h HI Hs) as (h' & Hrun & HI' & Hs').
      exists h'. split; [done|]. split; [|done].
      replace (seen ∪ (({[k]} ∪ list_to_set ks) ∩ dom s))
        with (seen ∪ (list_to_set ks ∩ dom s)) by set_solver. done. }
    rewrite Hs. destruct (s !! k) as [v|] eqn:Hk.
    + destruct (Hbody seen h k v HI Hs Hnin Hk) as (h1 & -> & HI1 & Hs1).
      destruct (IH _ h1 HI1 Hs1) as (h' & Hrun & HI' & Hs').
      exists h'. split; [done|]. split; [|done].
      assert (k ∈ dom s) by (apply elem_of_dom; eauto).
      replace (seen ∪ (({[k]} ∪ list_to_set ks) ∩ dom s))
        with ({[k]} ∪ seen ∪ (list_to_set ks ∩ dom s)) by set_solver. done.
    + destruct (IH seen h HI Hs) as (h' & Hrun & HI' & Hs').
      exists h'. split; [done|]. split; [|done].
      assert (k ∉ dom s) by (by apply not_elem_of_dom).
      replace (seen ∪ (({[k]} ∪ list_to_set ks) ∩ dom s))
        with (seen ∪ (list_to_set ks ∩ dom s)) by set_solver. done.
Qed.

End Range.

Lemma rangeDo_inv (m : mapref) (body : string → string → M unit) (Inv : Heap → Prop) :
  (∀ h k v, Inv h → deref h m !! k = Some v → ∃ h', body k v h = Ok tt h' ∧ Inv h') →
  ∀ order h, Inv h → ∃ h', rangeDo m order body h = Ok tt h' ∧ Inv h'.
Proof.
  intros Hbody order h HI. unfold rangeDo, range.
  destruct (rangeLoop_inv (R := Empty_set) m (λ k v, body k v;; ret None) Inv)
    with (ks := (order ++ (map_to_list (deref h m)).*1)%list) (seen := (∅ : gset string)) (h := h)
    as (h' & Hrun & HI'); [|done|].
  - intros h0 k v HI0 Hk. destruct (Hbody h0 k v HI0 Hk) as (h' & Hb & HI').
    exists h'. split; [|done]. unfold mbind, M_bind, bind. by rewrite Hb.
  - exists h'. split; [|done]. unfold mbind, M_bind, bind in *. by rewrite Hrun.
Qed.

Lemma rangeDo_stable (m : mapref) (body : string → string → M unit)
    (s : gmap string string) (Inv : gset string → Heap → Prop) :
  (∀ seen h k v, Inv seen h → deref h m = s → k ∉ seen → s !! k = Some v →
     ∃ h', body k v h = Ok tt h' ∧ Inv ({[k]} ∪ seen) h' ∧ deref h' m = s) →
  ∀ order h, Inv ∅ h → deref h m = s →
     ∃ h', rangeDo m order body h = Ok tt h' ∧ Inv (dom s) h'.
Proof.
  intros Hbody order h HI Hs. unfold rangeDo, range.
  destruct (rangeLoop_stable (R := Empty_set) m (λ k v, body k v;; ret None) s Inv)
    with (ks := (order ++ (map_to_list (deref h m)).*1)%list) (seen := (∅ : gset string)) (h := h)
    as (h' & Hrun & HI' & _); [|done|done|].
  - intros seen h0 k v HI0 Hs0 Hnin Hk.
    destruct (Hbody seen h0 k v HI0 Hs0 Hnin Hk) as (h' & Hb & HI' & Hs').
    exists h'. split; [|done]. unfold mbind, M_bind, bind. by rewrite Hb.
  - exists h'. split; [unfold mbind, M_bind, bind in *; by rewrite Hrun|].
    rewrite Hs, list_to_set_app_L, keys_dom in HI'.
    replace (∅ ∪ (list_to_set order ∪ dom s) ∩ dom s) with (dom s) in HI' by set_solver.
    done.
Qed.

(** ** The unexported helpers *)

Lemma lookup_restrict (X : gset string) (s : gmap string string) (i : string) :
  restrict X s !! i = if decide (i ∈ X) then s !! i else None.
Proof.
  unfold restrict. rewrite map_lookup_filter.
  destruct (s !! i) as [x|]; simpl; [|by destruct (decide _)].
  by case_guard.
Qed.

Lemma lookup_prefixed (prefix : string) (s : gmap string string) (i : string) :
  prefixed prefix s !! i = if HasPrefix i prefix then s !! i else None.
Proof.
  unfold prefixed. rewrite map_lookup_filter.
  destruct (s !! i) as [x|]; simpl; [|by destruct (HasPrefix i prefix)].
  case_guard; simpl in *; by destruct (HasPrefix i prefix).
Qed.

Lemma lookup_merge (X : gset string) (d s : gmap string string) (i : string) :
  (d ∪ restrict X s) !! i
  = match d !! i with
    | Some x => Some x
    | None => if decide (i ∈ X) then s !! i else None
    end.
Proof.
  rewrite lookup_union, lookup_restrict.
  destruct (d !! i); simpl; [by destruct (if decide _ then _ else _)|].
  by destruct (if decide _ then _ else _).
Qed.

Lemma restrict_dom (s e : gmap string string) :
  dom e ⊆ dom s → restrict (dom s) e = e.
Proof.
  intros Hsub. apply map_eq. intros i. rewrite lookup_restrict.
  case_decide as Hi; [done|]. symmetry. apply not_elem_of_dom. set_solver.
Qed.

Lemma restrict_empty (s : gmap string string) : restrict ∅ s = ∅.
Proof. apply map_eq. intros i. rewrite lookup_restrict, lookup_empty. by case_decide. Qed.

(** [addEntries] leaves in the destination the first-write-wins merge: the
    destination's own entries, then those of the source whose key is new. *)
Lemma addEntries_spec (src : mapref) (ld : loc) (d : gmap string string)
    (order : list string) (h : Heap) :
  maps h !! ld = Some d →
  addEntries src (Some ld) order h = Ok tt (setMap h ld (d ∪ deref h src)).
Proof.
  intros Hd. unfold addEntries. set (s := deref h src).
  destruct (rangeDo_stable src (λ key val, safeCopy (Some ld) key val) s
              (λ seen h', h' = setMap h ld (d ∪ restrict seen s))) with (order := order) (h := h)
    as (h' & -> & ->); [| |done|].
  - intros seen h0 k v -> Hs Hnin Hk.
    unfold safeCopy, mapHas, mbind, M_bind, bind. rewrite deref_setMap_eq.
    destruct ((d ∪ restrict seen s) !! k) as [x|] eqn:Hlk.
    + rewrite bool_decide_eq_true_2 by eauto. simpl. eexists. split; [done|].
      split; [|done]. f_equal. apply map_eq. intros i.
      rewrite !lookup_merge. rewrite lookup_merge in Hlk.
      destruct (d !! i) eqn:Hdi; [done|].
      destruct (decide (i = k)) as [->|Hne].
      * rewrite Hdi in Hlk. rewrite decide_False in Hlk by done. done.
      * repeat case_decide; try done; set_solver.
    + rewrite bool_decide_eq_false_2 by (intros [? ?]; congruence). cbn [negb].
      rewrite (mapStore_setMap _ _ (d ∪ restrict seen s)) by (simpl; apply lookup_insert_eq).
      eexists. split; [done|]. rewrite setMap_setMap.
      rewrite lookup_merge in Hlk.
      destruct (d !! k) eqn:Hdk; [done|].
      split.
      * f_equal. apply map_eq. intros i. rewrite lookup_merge.
        destruct (decide (i = k)) as [->|Hne].
        -- rewrite lookup_insert_eq, Hdk, decide_True by set_solver. done.
        -- rewrite lookup_insert_ne, lookup_merge by done.
           destruct (d !! i); [done|]. repeat case_decide; try done; set_solver.
      * destruct (decide (src = Some ld)) as [->|Hne].
        -- rewrite deref_setMap_eq in Hs. subst s. rewrite <- Hs in Hk.
           rewrite lookup_merge, Hdk, decide_False in Hk by done. done.
        -- rewrite deref_setMap_ne by done. by rewrite deref_setMap_ne in Hs.
  - rewrite restrict_empty, map_union_empty. symmetry. by apply setMap_id.
  - by rewrite restrict_dom.
Qed.

(** [filterByPrefix] with a non-empty prefix: a new map, holding the entries
    whose key starts with the prefix. *)
Lemma filterByPrefix_spec (src : mapref) (prefix : string) (order : list string) (h : Heap) :
  (String.length prefix =? 0)%nat = false →
  filterByPrefix src prefix order h
  = Ok (Some (fresh (dom (maps h))))
       (setMap h (fresh (dom (maps h))) (prefixed prefix (deref h src))).
Proof.
  intros Hlen. unfold filterByPrefix. rewrite Hlen.
  set (l := fresh (dom (maps h))) in *. set (s := deref h src).
  unfold mbind at 1, M_bind, bind at 1, newMap. fold l. fold (setMap h l ∅).
  destruct (decide (src = Some l)) as [Heq|Hsrc].
  { (* a reference to a map that does not exist yet reads as the empty map *)
    assert (s = ∅) as ->.
    { subst s src. unfold deref.
      by rewrite (proj1 (not_elem_of_dom (maps h) l) (is_fresh _)). }
    destruct (rangeDo_inv src
                (λ key val, if HasPrefix key prefix then mapStore (Some l) key val else ret tt)
                (λ h', h' = setMap h l ∅))
      with (order := order) (h := setMap h l ∅) as (h' & Hrun & ->); [|done|].
    - intros h0 k v -> Hk. subst src. by rewrite deref_setMap_eq, lookup_empty in Hk.
    - unfold mbind, M_bind, bind. rewrite Hrun. unfold ret. by do 2 f_equal. }
  destruct (rangeDo_stable src
              (λ key val, if HasPrefix key prefix then mapStore (Some l) key val else ret tt) s
              (λ seen h', h' = setMap h l (restrict seen (prefixed prefix s))))
    with (order := order) (h := setMap h l ∅) as (h' & Hrun & ->).
  - intros seen h0 k v -> Hs Hnin Hk.
    assert (∀ e, deref (setMap h l e) src = s) as Hsrc'.
    { intros e. by rewrite deref_setMap_ne. }
    destruct (HasPrefix k prefix) eqn:Hp.
    + rewrite (mapStore_setMap _ _ (restrict seen (prefixed prefix s)))
        by (simpl; apply lookup_insert_eq).
      eexists. split; [done|]. rewrite setMap_setMap. split; [|apply Hsrc'].
      f_equal. apply map_eq. intros i. rewrite lookup_restrict, lookup_prefixed.
      destruct (decide (i = k)) as [->|Hne].
      * rewrite lookup_insert_eq, decide_True, Hp by set_solver. done.
      * rewrite lookup_insert_ne, lookup_restrict, lookup_prefixed by done.
        repeat case_decide; try done; set_solver.
    + eexists. split; [done|]. split; [|done].
      f_equal. apply map_eq. intros i. rewrite !lookup_restrict, !lookup_prefixed.
      destruct (decide (i = k)) as [->|Hne].
      * rewrite Hp. by repeat case_decide.
      * repeat case_decide; try done; set_solver.
  - by rewrite restrict_empty.
  - by apply deref_setMap_ne.
  - unfold mbind, M_bind, bind. rewrite Hrun. unfold ret. f_equal.
    f_equal. apply restrict_dom.
    intros i. rewrite !elem_of_dom, lookup_prefixed.
    destruct (HasPrefix i prefix); [done | by intros [? ?]].
Qed.

Lemma renamed_prefix (prefix replacementPrefix key : string) :
  HasPrefix key prefix = true →
  renamed prefix replacementPrefix key
  = replacementPrefix +:+ sliceFrom (String.length prefix) key.
Proof.
  intros Hp. unfold renamed. destruct (String.eqb_spec prefix replacementPrefix) as [<-|Hne]; simpl.
  - by apply HasPrefix_drop.
  - by apply Replace1_prefix.
Qed.

(** Two keys with the prefix are stored under different keys. *)
Lemma renamed_inj (prefix replacementPrefix k1 k2 : string) :
  HasPrefix k1 prefix = true → HasPrefix k2 prefix = true →
  renamed prefix replacementPrefix k1 = renamed prefix replacementPrefix k2 → k1 = k2.
Proof.
  intros H1 H2. rewrite !renamed_prefix by done. intros Heq%app_inv_head.
  rewrite (HasPrefix_drop _ _ H1), (HasPrefix_drop _ _ H2). by f_equal.
Qed.

(** [copyWithNewPrefix] between two different maps. *)
Lemma copyWithNewPrefix_spec (src : mapref) (ld : loc) (d : gmap string string)
    (prefix replacementPrefix : string) (order : list string) (h : Heap) :
  maps h !! ld = Some d →
  src ≠ Some ld →
  ∃ d', copyWithNewPrefix src (Some ld) prefix replacementPrefix order h
        = Ok tt (setMap h ld d')
        ∧ Copied prefix replacementPrefix (deref h src) d d'.
Proof.
  intros Hd Hsrc. unfold copyWithNewPrefix. fold (renamed prefix replacementPrefix).
  set (s := deref h src).
  destruct (rangeDo_stable src
              (λ key value, if HasPrefix key prefix
                            then mapStore (Some ld) (renamed prefix replacementPrefix key) value
                            else ret tt) s
              (λ seen h', ∃ d', h' = setMap h ld d'
                                ∧ CopiedOn seen prefix replacementPrefix s d d'))
    with (order := order) (h := h) as (h' & Hrun & d' & -> & Hc1 & Hc2).
  - intros seen h0 k v (dc & -> & Hc1 & Hc2) Hs Hnin Hk.
    assert (∀ e, deref (setMap h ld e) src = s) as Hsrc'.
    { intros e. by rewrite deref_setMap_ne. }
    destruct (HasPrefix k prefix) eqn:Hp.
    + rewrite (mapStore_setMap _ _ dc) by (simpl; apply lookup_insert_eq).
      eexists. split; [done|]. rewrite setMap_setMap. split; [|apply Hsrc'].
      eexists. split; [done|]. split.
      * intros k0 v0 Hin Hk0 Hp0. destruct (decide (k0 = k)) as [->|Hne].
        -- rewrite lookup_insert_eq. congruence.
        -- rewrite lookup_insert_ne.
           ++ apply Hc1; [set_solver | done | done].
           ++ intros Heq. apply Hne. symmetry. by eapply renamed_inj.
      * intros k' Hk'. rewrite lookup_insert_ne.
        -- apply Hc2. intros k0 Hin. apply Hk'. set_solver.
        -- apply Hk'; [set_solver | by eauto | done].
    + eexists. split; [done|]. split; [|done].
      exists dc. split; [done|]. split.
      * intros k0 v0 Hin Hk0 Hp0. apply Hc1; [|done|done].
        destruct (decide (k0 = k)) as [->|Hne]; [congruence | set_solver].
      * intros k' Hk'. apply Hc2. intros k0 Hin. apply Hk'. set_solver.
  - exists d. split; [symmetry; by apply setMap_id|]. split; [set_solver | done].
  - done.
  - exists d'. split; [done|]. split.
    + intros k v Hk Hp. apply Hc1; [apply elem_of_dom; by eauto | done | done].
    + intros k' Hk'. apply Hc2. intros k Hin. by apply Hk'.
Qed.

(** [copyWithNewPrefix] into a map that exists runs to its end, also when
    the two maps are one. *)
Lemma copyWithNewPrefix_total (src : mapref) (ld : loc)
    (prefix replacementPrefix : string) (order : list string) (h : Heap) :
  is_Some (maps h !! ld) →
  ∃ h', copyWithNewPrefix src (Some ld) prefix replacementPrefix order h = Ok tt h'
        ∧ objs h' = objs h.
Proof.
  intros Hd. unfold copyWithNewPrefix. fold (renamed prefix replacementPrefix).
  destruct (rangeDo_inv src
              (λ key value, if HasPrefix key prefix
                            then mapStore (Some ld) (renamed prefix replacementPrefix key) value
                            else ret tt)
              (λ h', is_Some (maps h' !! ld) ∧ objs h' = objs h))
    with (order := order) (h := h) as (h' & Hrun & _ & Ho); [|done|by exists h'].
  intros h0 k v [[e He] Ho] Hk. destruct (HasPrefix k prefix).
  - rewrite (mapStore_setMap _ _ e) by done. eexists. split; [done|].
    simpl. rewrite lookup_insert_eq. eauto.
  - eexists. split; [done|]. eauto.
Qed.

(** The search loop of the [...WithValue] queries does not touch the store
    and answers [true] exactly when some entry holds the value. *)
Lemma findValue_loop (m : mapref) (value : string) (h : Heap)
    (ks : list string) (seen : gset string) :
  ∃ r, rangeLoop m (λ _ val, if String.eqb val value then ret (Some true) else ret None)
         ks seen h = Ok r h
       ∧ (r = Some true ∨ r = None)
       ∧ (r = Some true ↔ ∃ k, k ∈ ks ∧ (k ∉ seen) ∧ deref h m !! k = Some value).
Proof.
  revert seen. induction ks as [|k ks IH]; intros seen; simpl.
  - exists None. split; [done|]. split; [by right|].
    split; [done | intros (k & Hin & _); by apply elem_of_nil in Hin].
  - destruct (decide (k ∈ seen)) as [Hin|Hnin].
    { destruct (IH seen) as (r & Hrun & Hr & Hiff). exists r. split; [done|]. split; [done|].
      rewrite Hiff. split; intros (k' & Hk' & Hs' & Hv); exists k'.
      - split; [by apply list_elem_of_further | done].
      - apply elem_of_cons in Hk' as [->|Hk']; done. }
    destruct (deref h m !! k) as [v|] eqn:Hk.
    + destruct (String.eqb_spec v value) as [->|Hne].
      * exists (Some true). unfold ret. split; [done|]. split; [by left|].
        split; [|done]. intros _. exists k. split; [apply list_elem_of_here | done].
      * unfold ret. destruct (IH ({[k]} ∪ seen)) as (r & Hrun & Hr & Hiff).
        exists r. split; [done|]. split; [done|].
        rewrite Hiff. split; intros (k' & Hk' & Hs' & Hv); exists k'.
        -- split; [by apply list_elem_of_further|]. split; [set_solver | done].
        -- apply elem_of_cons in Hk' as [->|Hk']; [congruence|].
           split; [done|]. split; [|done].
           intros [->%elem_of_singleton|?]%elem_of_union; [congruence | done].
    + destruct (IH seen) as (r & Hrun & Hr & Hiff). exists r. split; [done|]. split; [done|].
      rewrite Hiff. split; intros (k' & Hk' & Hs' & Hv); exists k'.
      * split; [by apply list_elem_of_further | done].
      * apply elem_of_cons in Hk' as [->|Hk']; [congruence | done].
Qed.

Lemma findValue_spec (m : mapref) (value : string) (order : list string) (h : Heap) :
  ∃ r, findValue m value order h = Ok r h
       ∧ (r = Some true ∨ r = None)
       ∧ (r = Some true ↔ ∃ k, deref h m !! k = Some value).
Proof.
  unfold findValue, range.
  destruct (findValue_loop m value h (order ++ (map_to_list (deref h m)).*1) ∅)
    as (r & Hrun & Hr & Hiff).
  exists r. split; [done|]. split; [done|]. rewrite Hiff.
  split.
  - intros (k & _ & _ & Hk). by exists k.
  - intros (k & Hk). exists k. split; [|split; [set_solver | done]].
    apply elem_of_app. right. apply list_elem_of_fmap. exists (k, value).
    split; [done|]. by apply elem_of_map_to_list.
Qed.

(** ** The exported functions, by slot *)

Lemma validRef_fresh (h : Heap) (m : mapref) :
  validRef h m → m ≠ Some (fresh (dom (maps h))).
Proof.
  intros Hv ->. simpl in Hv. apply elem_of_dom in Hv. by apply is_fresh in Hv.
Qed.

Lemma withSlot_id (sl : slot) (meta : ObjectMeta) :
  withSlot sl (slotOf sl meta) meta = meta.
Proof. by destruct sl, meta. Qed.

Lemma slotOf_withSlot (sl : slot) (m : mapref) (meta : ObjectMeta) :
  slotOf sl (withSlot sl m meta) = m.
Proof. by destruct sl. Qed.

Lemma prefixed_empty (e : gmap string string) : prefixed "" e = e.
Proof. apply map_eq. intros i. by rewrite lookup_prefixed, HasPrefix_empty. Qed.

Ltac run :=
  cbn [getWithPrefix has hasWithValue addAll addOne copyByPrefix];
  unfold GetLabelsWithPrefix, GetAnnotationsWithPrefix, HasLabel, HasAnnotation,
    HasLabelWithValue, HasAnnotationWithValue, AddLabels, AddAnnotations,
    AddLabel, AddAnnotation, CopyLabelsByPrefix, CopyAnnotationsByPrefix,
    GetLabels, GetAnnotations, SetLabels, SetAnnotations, getMeta, setMeta,
    mapLen, mapHas, newMap, mbind, M_bind, bind, ret; simpl.

Section BySlot.
Variable sl : slot.

Lemma getWithPrefix_nil (prefix : string) (order : list string) (h : Heap) :
  getWithPrefix sl None prefix order h
  = Ok (Some (fresh (dom (maps h))), Some NilObjectError)
       (setMap h (fresh (dom (maps h))) ∅).
Proof. by destruct sl. Qed.

Lemma getWithPrefix_empty (p : loc) (meta : ObjectMeta) (order : list string) (h : Heap) :
  objs h !! p = Some meta →
  getWithPrefix sl (Some p) "" order h = Ok (slotOf sl meta, None) h.
Proof. intros Hp. destruct sl; run; by rewrite Hp. Qed.

Lemma getWithPrefix_filter (p : loc) (meta : ObjectMeta) (prefix : string)
    (order : list string) (h : Heap) :
  objs h !! p = Some meta → prefix ≠ "" →
  getWithPrefix sl (Some p) prefix order h
  = Ok (Some (fresh (dom (maps h))), None)
       (setMap h (fresh (dom (maps h))) (prefixed prefix (deref h (slotOf sl meta)))).
Proof.
  intros Hp Hne.
  assert ((String.length prefix =? 0)%nat = false) as Hlen.
  { apply not_true_iff_false. by rewrite length_zero_empty. }
  destruct sl; run; rewrite Hp; simpl; by rewrite filterByPrefix_spec.
Qed.

(** Either way, a live object yields the entries with the prefix, and no
    map that exists is changed. *)
Lemma getWithPrefix_live (p : loc) (meta : ObjectMeta) (prefix : string)
    (order : list string) (h : Heap) :
  objs h !! p = Some meta →
  ∃ r h', getWithPrefix sl (Some p) prefix order h = Ok (r, None) h'
          ∧ deref h' r = prefixed prefix (deref h (slotOf sl meta))
          ∧ objs h' = objs h
          ∧ maps h ⊆ maps h'.
Proof.
  intros Hp. destruct (decide (prefix = "")) as [->|Hne].
  - exists (slotOf sl meta), h. rewrite prefixed_empty.
    split; [by apply getWithPrefix_empty | done].
  - eexists _, _. split; [by apply getWithPrefix_filter|].
    split; [apply deref_setMap_eq|]. split; [done|]. simpl.
    apply insert_subseteq, not_elem_of_dom, is_fresh.
Qed.

End BySlot.

Section Queries.
Variable sl : slot.

Lemma has_nil (key : string) (order : list string) (h : Heap) :
  has sl None key order h = Ok false (setMap h (fresh (dom (maps h))) ∅).
Proof. by destruct sl. Qed.

Lemma hasWithValue_nil (key value : string) (order order' : list string) (h : Heap) :
  hasWithValue sl None key value order order' h
  = Ok false (setMap h (fresh (dom (maps h))) ∅).
Proof. by destruct sl. Qed.

(** The existence query on a live object: some stored key starts with
    the query key. *)
Lemma has_live (p : loc) (meta : ObjectMeta) (key : string) (order : list string) (h : Heap) :
  objs h !! p = Some meta →
  ∃ b h', has sl (Some p) key order h = Ok b h'
          ∧ (b = true ↔ ∃ k v, deref h (slotOf sl meta) !! k = Some v
                                ∧ HasPrefix k key = true)
          ∧ objs h' = objs h ∧ maps h ⊆ maps h'.
Proof.
  intros Hp.
  destruct (getWithPrefix_live sl p meta key order h Hp) as (r & h' & Hrun & Hr & Ho & Hm).
  exists (negb (size (deref h' r) =? 0)%nat), h'. split.
  - destruct sl; cbn [getWithPrefix addAll] in Hrun; cbn [has hasWithValue];
      unfold HasLabel, HasAnnotation, mbind, M_bind, bind; rewrite Hrun;
      unfold mapLen, ret; by destruct (size _ =? 0)%nat.
  - split; [|done]. rewrite Hr, negb_true_iff, Nat.eqb_neq, map_size_ne_0_lookup.
    split.
    + intros (k & v & Hk). rewrite lookup_prefixed in Hk. exists k, v.
      by destruct (HasPrefix k key).
    + intros (k & v & Hk & Hpre). exists k. rewrite lookup_prefixed, Hpre. eauto.
Qed.

(** The value query on a live object: some stored key that starts with
    the query key holds the value. *)
Lemma hasWithValue_live (p : loc) (meta : ObjectMeta) (key value : string)
    (order order' : list string) (h : Heap) :
  objs h !! p = Some meta →
  ∃ b h', hasWithValue sl (Some p) key value order order' h = Ok b h'
          ∧ (b = true ↔ ∃ k, deref h (slotOf sl meta) !! k = Some value
                              ∧ HasPrefix k key = true)
          ∧ objs h' = objs h ∧ maps h ⊆ maps h'.
Proof.
  intros Hp.
  destruct (getWithPrefix_live sl p meta key order h Hp) as (r & h' & Hrun & Hr & Ho & Hm).
  destruct (findValue_spec r value order' h') as (res & Hfind & Hres & Hiff).
  exists (default false res), h'. split.
  - destruct sl; cbn [getWithPrefix addAll] in Hrun; cbn [has hasWithValue];
      unfold HasLabelWithValue, HasAnnotationWithValue, mbind, M_bind, bind;
      rewrite Hrun, Hfind; by destruct res.
  - split; [|done].
    assert (default false res = true ↔ res = Some true) as ->.
    { destruct Hres as [->| ->]; simpl; split; done. }
    rewrite Hiff, Hr. split; intros (k & Hk).
    + rewrite lookup_prefixed in Hk. exists k. by destruct (HasPrefix k key).
    + exists k. rewrite lookup_prefixed. destruct Hk as [Hk ->]. done.
Qed.

End Queries.

Section Mutations.
Variable sl : slot.

Lemma addAll_nil (entries : mapref) (order : list string) (h : Heap) :
  addAll sl None entries order h = Ok (Some NilObjectError) h.
Proof. by destruct sl. Qed.

(** The bulk add on a live object: the slot is created when it is nil,
    and receives the first-write-wins merge of the entries. *)
Lemma addAll_live (p : loc) (meta : ObjectMeta) (entries : mapref)
    (order : list string) (h : Heap) :
  objs h !! p = Some meta → validRef h (slotOf sl meta) →
  ∃ h' ld, addAll sl (Some p) entries order h = Ok None h'
           ∧ objs h' = <[p := withSlot sl (Some ld) meta]> (objs h)
           ∧ maps h' = <[ld := deref h (slotOf sl meta) ∪ deref h entries]> (maps h)
           ∧ (slotOf sl meta = Some ld
              ∨ slotOf sl meta = None ∧ ld = fresh (dom (maps h))).
Proof.
  intros Hp Hv. destruct (slotOf sl meta) as [ld|] eqn:Hsl.
  - destruct Hv as [d Hd]. exists (setMap h ld (d ∪ deref h entries)), ld.
    split; [|split; [|split]].
    + destruct sl; run; rewrite Hp; simpl in *; rewrite Hsl, Hp; simpl; rewrite Hsl;
        by rewrite (addEntries_spec _ _ d).
    + simpl. rewrite <- Hsl, withSlot_id. by rewrite insert_id.
    + simpl. unfold deref at 1. by rewrite Hd.
    + by left.
  - set (l := fresh (dom (maps h))).
    set (h2 := mkHeap (<[l := ∅]> (maps h)) (<[p := withSlot sl (Some l) meta]> (objs h))).
    assert (deref h2 entries = deref h entries) as Hent.
    { destruct entries as [le|]; [|done]. unfold deref, h2. simpl.
      destruct (decide (le = l)) as [->|Hne].
      - rewrite lookup_insert_eq.
        by rewrite (proj1 (not_elem_of_dom (maps h) l) (is_fresh _)).
      - by rewrite lookup_insert_ne. }
    exists (setMap h2 l (∅ ∪ deref h2 entries)), l.
    split; [|split; [|split]].
    + destruct sl; run; rewrite Hp; simpl in *; rewrite Hsl; fold l;
        rewrite Hp; simpl; rewrite lookup_insert_eq; simpl;
        by rewrite (addEntries_spec _ _ ∅) by (simpl; apply lookup_insert_eq).
    + done.
    + simpl. by rewrite insert_insert_eq, Hent.
    + by right.
Qed.

Lemma addOne_nil (key value : string) (order : list string) (h : Heap) :
  ∃ h', addOne sl None key value order h = Ok tt h'
        ∧ objs h' = objs h ∧ maps h ⊆ maps h'.
Proof.
  eexists. split.
  - destruct sl; run; by rewrite lookup_insert_eq.
  - split; [done|]. simpl. rewrite insert_insert_eq.
    apply insert_subseteq, not_elem_of_dom, is_fresh.
Qed.

(** The single add on a live object. *)
Lemma addOne_live (p : loc) (meta : ObjectMeta) (key value : string)
    (order : list string) (h : Heap) :
  objs h !! p = Some meta → validRef h (slotOf sl meta) →
  ∃ h' ld, addOne sl (Some p) key value order h = Ok tt h'
           ∧ objs h' = <[p := withSlot sl (Some ld) meta]> (objs h)
           ∧ maps h' !! ld = Some (deref h (slotOf sl meta) ∪ {[key := value]}).
Proof.
  intros Hp Hv. set (l := fresh (dom (maps h))).
  set (h2 := mkHeap (<[l := <[key := value]> ∅]> (<[l := ∅]> (maps h))) (objs h)).
  assert (slotOf sl meta ≠ Some l) as Hne by by apply validRef_fresh.
  assert (validRef h2 (slotOf sl meta)) as Hv2.
  { destruct (slotOf sl meta) as [ld|]; [|done]. simpl.
    rewrite !lookup_insert_ne by congruence. done. }
  destruct (addAll_live p meta (Some l) order h2 Hp Hv2)
    as (h' & ld & Hrun & Ho & Hm & Hld).
  exists h', ld. split; [|split; [done|]].
  - destruct sl; cbn [getWithPrefix addAll] in Hrun; cbn [addOne];
      unfold AddLabel, AddAnnotation, newMap, mapStore, mbind, M_bind, bind;
      cbn [maps objs]; fold l; rewrite lookup_insert_eq; fold h2;
      by rewrite Hrun.
  - rewrite Hm, lookup_insert_eq. f_equal. f_equal.
    + destruct (slotOf sl meta) as [l0|]; [|done]. unfold deref, h2. simpl.
      by rewrite !lookup_insert_ne by congruence.
    + unfold deref, h2. simpl. by rewrite lookup_insert_eq.
Qed.

End Mutations.

Section Copies.
Variable sl : slot.

(** A nil source object: the method call on the nil interface panics. *)
Lemma copyByPrefix_nil_src (dest : Object) (prefix replacementPrefix : string)
    (order : list string) (h : Heap) :
  copyByPrefix sl None dest prefix replacementPrefix order h = Panic.
Proof. by destruct sl. Qed.

(** A source whose slot is nil: nothing happens, whatever [dest] is. *)
Lemma copyByPrefix_nil_slot (ps : loc) (ms : ObjectMeta) (dest : Object)
    (prefix replacementPrefix : string) (order : list string) (h : Heap) :
  objs h !! ps = Some ms → slotOf sl ms = None →
  copyByPrefix sl (Some ps) dest prefix replacementPrefix order h = Ok tt h.
Proof. intros Hp Hsl. destruct sl; run; rewrite Hp; simpl in *; by rewrite Hsl. Qed.

(** A source with a slot and a nil destination object: the method call on
    the nil interface panics. *)
Lemma copyByPrefix_nil_dest (ps ls : loc) (ms : ObjectMeta)
    (prefix replacementPrefix : string) (order : list string) (h : Heap) :
  objs h !! ps = Some ms → slotOf sl ms = Some ls →
  copyByPrefix sl (Some ps) None prefix replacementPrefix order h = Panic.
Proof. intros Hp Hsl. destruct sl; run; rewrite Hp; simpl in *; by rewrite Hsl. Qed.

Lemma copyByPrefix_unfold (ps pd ls : loc) (ms md : ObjectMeta)
    (prefix replacementPrefix : string) (order : list string) (h : Heap) :
  objs h !! ps = Some ms → objs h !! pd = Some md →
  slotOf sl ms = Some ls →
  copyByPrefix sl (Some ps) (Some pd) prefix replacementPrefix order h
  = copyWithNewPrefix (Some ls) (Some (prepared sl pd md h).1) prefix replacementPrefix
      order (prepared sl pd md h).2.
Proof.
  intros Hps Hpd Hsl. unfold prepared.
  destruct (slotOf sl md) as [ld|] eqn:Hd.
  - destruct sl; run; rewrite Hps; simpl in *; rewrite Hsl, Hpd; simpl;
      rewrite Hd, Hps; simpl; rewrite Hpd; simpl; by rewrite Hsl, Hd.
  - assert (ps ≠ pd) as Hne by (intros ->; congruence).
    destruct sl; run; rewrite Hps; simpl in *; rewrite Hsl, Hpd; simpl;
      rewrite Hd, Hpd; simpl; rewrite lookup_insert_ne, Hps by done; simpl;
      rewrite lookup_insert_eq; simpl; by rewrite Hsl.
Qed.

(** Two live objects: the copy runs to its end, also when both slots are
    one map. *)
Lemma copyByPrefix_total (ps pd : loc) (ms md : ObjectMeta)
    (prefix replacementPrefix : string) (order : list string) (h : Heap) :
  objs h !! ps = Some ms → objs h !! pd = Some md →
  validRef h (slotOf sl md) →
  ∃ h', copyByPrefix sl (Some ps) (Some pd) prefix replacementPrefix order h = Ok tt h'.
Proof.
  intros Hps Hpd Hv. destruct (slotOf sl ms) as [ls|] eqn:Hsl.
  - rewrite (copyByPrefix_unfold ps pd ls ms md) by done.
    destruct (copyWithNewPrefix_total (Some ls) (prepared sl pd md h).1 prefix
                replacementPrefix order (prepared sl pd md h).2) as (h' & Hrun & _).
    + unfold prepared. destruct (slotOf sl md); simpl; [done|].
      rewrite lookup_insert_eq. eauto.
    + by exists h'.
  - exists h. by apply (copyByPrefix_nil_slot ps ms).
Qed.

(** Two live objects whose slots are different maps. *)
Lemma copyByPrefix_live (ps pd ls : loc) (ms md : ObjectMeta)
    (prefix replacementPrefix : string) (order : list string) (h : Heap) :
  objs h !! ps = Some ms → objs h !! pd = Some md →
  slotOf sl ms = Some ls → is_Some (maps h !! ls) →
  validRef h (slotOf sl md) → slotOf sl md ≠ Some ls →
  ∃ h' ld d',
    copyByPrefix sl (Some ps) (Some pd) prefix replacementPrefix order h = Ok tt h'
    ∧ objs h' = <[pd := withSlot sl (Some ld) md]> (objs h)
    ∧ maps h' = <[ld := d']> (maps h)
    ∧ (slotOf sl md = Some ld
       ∨ slotOf sl md = None ∧ ld = fresh (dom (maps h)))
    ∧ Copied prefix replacementPrefix (deref h (Some ls)) (deref h (slotOf sl md)) d'.
Proof.
  intros Hps Hpd Hsl Hls Hv Hne.
  rewrite (copyByPrefix_unfold ps pd ls ms md) by done. unfold prepared.
  destruct (slotOf sl md) as [ld|] eqn:Hd; simpl.
  - destruct Hv as [d Hdm].
    destruct (copyWithNewPrefix_spec (Some ls) ld d prefix replacementPrefix order h)
      as (d' & Hrun & Hc); [done | congruence |].
    exists (setMap h ld d'), ld, d'. split; [done|].
    split; [|split; [done|split; [by left|]]].
    + simpl. rewrite <- Hd, withSlot_id. by rewrite insert_id.
    + by rewrite Hdm.
  - set (l := fresh (dom (maps h))).
    assert (ls ≠ l) as Hfresh.
    { intros ->. apply elem_of_dom in Hls. by apply is_fresh in Hls. }
    set (h2 := mkHeap (<[l := ∅]> (maps h)) (<[pd := withSlot sl (Some l) md]> (objs h))).
    destruct (copyWithNewPrefix_spec (Some ls) l ∅ prefix replacementPrefix order h2)
      as (d' & Hrun & Hc); [apply lookup_insert_eq | congruence |].
    exists (setMap h2 l d'), l, d'. split; [done|].
    split; [done|]. split; [simpl; by rewrite insert_insert_eq|]. split; [by right|].
    assert (deref h2 (Some ls) = default ∅ (maps h !! ls)) as Heq.
    { unfold deref, h2. simpl. by rewrite lookup_insert_ne. }
    by rewrite Heq in Hc.
Qed.

End Copies.

(** ** What a call leaves of the maps that exist *)

Section Kept.
Context (P : relation (gmap string string)) `{!PreOrder P}.

Lemma kept_refl (h : Heap) : kept P h h.
Proof. intros l e He. by exists e. Qed.

Lemma kept_trans (h1 h2 h3 : Heap) : kept P h1 h2 → kept P h2 h3 → kept P h1 h3.
Proof.
  intros H12 H23 l e He. destruct (H12 l e He) as (e2 & He2 & HP2).
  destruct (H23 l e2 He2) as (e3 & He3 & HP3). exists e3. split; [done|].
  by transitivity e2.
Qed.

Lemma kept_fresh (h : Heap) (e : gmap string string) (os : gmap loc ObjectMeta) :
  kept P h (mkHeap (<[fresh (dom (maps h)) := e]> (maps h)) os).
Proof.
  intros l e0 He0. exists e0. split; [|done]. simpl. rewrite lookup_insert_ne; [done|].
  intros <-. apply (is_fresh (dom (maps h))). apply elem_of_dom. by eauto.
Qed.

Lemma kept_store (h : Heap) (l : loc) (e e' : gmap string string) :
  maps h !! l = Some e → P e e' → kept P h (setMap h l e').
Proof.
  intros He HP l0 e0 He0. simpl. destruct (decide (l0 = l)) as [->|Hne].
  - rewrite lookup_insert_eq. exists e'. split; [done | congruence].
  - rewrite lookup_insert_ne by done. by exists e0.
Qed.

Lemma preserving_ret {A} (a : A) : preserving P (ret a).
Proof. intros h a' h' [= _ <-]. apply kept_refl. Qed.

Lemma preserving_bind {A B} (c : M A) (k : A → M B) :
  preserving P c → (∀ a, preserving P (k a)) → preserving P (c ≫= k).
Proof.
  intros Hc Hk h b h' (a & h1 & H1 & H2)%bind_inv.
  eapply kept_trans; [by eapply Hc | by eapply Hk].
Qed.

Lemma preserving_newMap : preserving P newMap.
Proof. intros h a h' [= _ <-]. apply kept_fresh. Qed.

Lemma preserving_mapHas (m : mapref) (key : string) : preserving P (mapHas m key).
Proof. intros h a h' [= _ <-]. apply kept_refl. Qed.

Lemma preserving_mapLen (m : mapref) : preserving P (mapLen m).
Proof. intros h a h' [= _ <-]. apply kept_refl. Qed.

Lemma preserving_getMeta (o : Object) : preserving P (getMeta o).
Proof.
  intros h a h'. unfold getMeta. destruct o as [p|]; [|done].
  destruct (objs h !! p); [|done]. intros [= _ <-]. apply kept_refl.
Qed.

Lemma preserving_setMeta (o : Object) (f : ObjectMeta → ObjectMeta) :
  preserving P (setMeta o f).
Proof.
  intros h a h'. unfold setMeta. destruct o as [p|]; [|done].
  destruct (objs h !! p); [|done]. intros [= _ <-]. intros l e He. by exists e.
Qed.

Lemma preserving_rangeLoop {R} (m : mapref) (body : string → string → M (option R))
    (ks : list string) (seen : gset string) :
  (∀ k v, preserving P (body k v)) → preserving P (rangeLoop m body ks seen).
Proof.
  intros Hbody. revert seen. induction ks as [|k ks IH]; intros seen h r h'; simpl.
  - apply (preserving_ret None).
  - destruct (decide (k ∈ seen)); [by apply IH|].
    destruct (deref h m !! k) as [v|]; [|by apply IH].
    destruct (body k v h) as [[r0|] h1|] eqn:Hb; [| |done].
    + intros [= _ <-]. by eapply Hbody.
    + intros Hrest. eapply kept_trans; [by eapply Hbody | by eapply IH].
Qed.

Lemma preserving_range {R} (m : mapref) (order : list string)
    (body : string → string → M (option R)) :
  (∀ k v, preserving P (body k v)) → preserving P (range m order body).
Proof. intros Hbody h r h'. unfold range. by apply preserving_rangeLoop. Qed.

Lemma preserving_rangeDo (m : mapref) (order : list string)
    (body : string → string → M unit) :
  (∀ k v, preserving P (body k v)) → preserving P (rangeDo m order body).
Proof.
  intros Hbody. unfold rangeDo. apply preserving_bind; [|intros; apply preserving_ret].
  apply preserving_range. intros k v.
  apply preserving_bind; [done | intros; apply preserving_ret].
Qed.

Lemma preserving_filterByPrefix (entries : mapref) (prefix : string) (order : list string) :
  preserving P (filterByPrefix entries prefix order).
Proof.
  intros h a h'. destruct (String.length prefix =? 0)%nat eqn:Hlen.
  - unfold filterByPrefix. rewrite Hlen. apply preserving_ret.
  - rewrite filterByPrefix_spec by done. intros [= _ <-]. apply kept_fresh.
Qed.

Lemma preserving_findValue (m : mapref) (value : string) (order : list string) :
  preserving P (findValue m value order).
Proof.
  apply preserving_range. intros k v. destruct (String.eqb v value); apply preserving_ret.
Qed.

Lemma preserving_getWithPrefix (sl : slot) (o : Object) (prefix : string)
    (order : list string) :
  preserving P (getWithPrefix sl o prefix order).
Proof.
  destruct sl, o as [p|]; cbn [getWithPrefix];
    unfold GetLabelsWithPrefix, GetAnnotationsWithPrefix, GetLabels, GetAnnotations;
    repeat first [ apply preserving_ret | apply preserving_newMap
                 | apply preserving_getMeta | apply preserving_filterByPrefix
                 | apply preserving_bind; [|intros ?] ].
Qed.

Lemma preserving_has (sl : slot) (o : Object) (key : string) (order : list string) :
  preserving P (has sl o key order).
Proof.
  destruct sl; cbn [has]; unfold HasLabel, HasAnnotation;
    (apply preserving_bind; [apply (preserving_getWithPrefix SlotLabels)
                              || apply (preserving_getWithPrefix SlotAnnotations)|]);
    intros [m err]; (apply preserving_bind; [apply preserving_mapLen|]);
    intros n; destruct (_ || _); apply preserving_ret.
Qed.

Lemma preserving_hasWithValue (sl : slot) (o : Object) (key value : string)
    (order order' : list string) :
  preserving P (hasWithValue sl o key value order order').
Proof.
  destruct sl; cbn [hasWithValue]; unfold HasLabelWithValue, HasAnnotationWithValue;
    (apply preserving_bind; [apply (preserving_getWithPrefix SlotLabels)
                              || apply (preserving_getWithPrefix SlotAnnotations)|]);
    intros [m [msg|]]; try apply preserving_ret;
    (apply preserving_bind; [apply preserving_findValue|]);
    intros [b|]; apply preserving_ret.
Qed.

(** The frame of the two mutating families, given what their stores do. *)
Lemma preserving_addAll (sl : slot) (o : Object) (entries : mapref) (order : list string) :
  (∀ m k v, preserving P (safeCopy m k v)) →
  preserving P (addAll sl o entries order).
Proof.
  intros Hsafe.
  destruct sl, o as [p|]; cbn [addAll];
    unfold AddLabels, AddAnnotations, GetLabels, GetAnnotations, SetLabels,
      SetAnnotations, addEntries;
    repeat first [ apply preserving_ret | apply preserving_newMap
                 | apply preserving_getMeta | apply preserving_setMeta
                 | apply preserving_rangeDo; intros ? ?; apply Hsafe
                 | apply preserving_bind; [|intros ?]
                 | match goal with |- preserving P (match ?x with _ => _ end) => destruct x end ].
Qed.

Lemma preserving_addOne (sl : slot) (o : Object) (key value : string) (order : list string) :
  (∀ m k v, preserving P (safeCopy m k v)) →
  preserving P (addOne sl o key value order).
Proof.
  intros Hsafe h a h' Hrun.
  assert (∃ a0, addAll sl o (Some (fresh (dom (maps h)))) order
                  (mkHeap (<[fresh (dom (maps h)) := {[key := value]}]> (maps h)) (objs h))
                = Ok a0 h') as [a0 Hadd].
  { destruct sl; cbn [addOne addAll] in *;
      unfold AddLabel, AddAnnotation, newMap, mapStore, mbind, M_bind, bind in Hrun;
      cbn [maps objs] in Hrun; rewrite lookup_insert_eq, insert_insert_eq in Hrun;
      rewrite insert_empty in Hrun;
      match type of Hrun with
      | match ?c with _ => _ end = _ => destruct c as [a0 h0|] eqn:Hc; [|done]
      end; injection Hrun as _ <-; by exists a0. }
  eapply kept_trans; [apply kept_fresh|]. by eapply preserving_addAll.
Qed.

Lemma preserving_copyByPrefix (sl : slot) (src dest : Object)
    (prefix replacementPrefix : string) (order : list string) :
  (∀ m k v, preserving P (mapStore m k v)) →
  preserving P (copyByPrefix sl src dest prefix replacementPrefix order).
Proof.
  intros Hstore.
  destruct sl; cbn [copyByPrefix];
    unfold CopyLabelsByPrefix, CopyAnnotationsByPrefix, GetLabels, GetAnnotations,
      SetLabels, SetAnnotations, copyWithNewPrefix;
    repeat first [ apply preserving_ret | apply preserving_newMap
                 | apply preserving_getMeta | apply preserving_setMeta
                 | apply Hstore
                 | apply preserving_rangeDo; intros ? ?
                 | apply preserving_bind; [|intros ?]
                 | match goal with |- preserving P (match ?x with _ => _ end) => destruct x end
                 | match goal with |- preserving P (if ?x then _ else _) => destruct x end ].
Qed.

End Kept.

#[local] Instance keysIn_preorder : PreOrder keysIn.
Proof. split; unfold keysIn; [intros e | intros e1 e2 e3]; set_solver. Qed.

(** [safeCopy] never changes an entry that is there. *)
Lemma safeCopy_entries (m : mapref) (k v : string) : preserving (⊆) (safeCopy m k v).
Proof.
  intros h a h'. unfold safeCopy, mapHas, mbind, M_bind, bind.
  destruct (deref h m !! k) as [x|] eqn:Hk.
  - rewrite bool_decide_eq_true_2 by eauto. intros [= _ <-]. apply kept_refl. apply _.
  - rewrite bool_decide_eq_false_2 by (intros [? ?]; congruence). cbn [negb].
    destruct m as [l|]; [|done]. unfold mapStore.
    destruct (maps h !! l) as [e|] eqn:He; [|done]. intros [= _ <-].
    apply (kept_store _ h l e); [done|]. apply insert_subseteq.
    unfold deref in Hk. by rewrite He in Hk.
Qed.

(** A store never removes a key. *)
Lemma mapStore_keys (m : mapref) (k v : string) : preserving keysIn (mapStore m k v).
Proof.
  intros h a h'. unfold mapStore. destruct m as [l|]; [|done].
  destruct (maps h !! l) as [e|] eqn:He; [|done]. intros [= _ <-].
  apply (kept_store _ h l e); [done|]. unfold keysIn. rewrite dom_insert_L. set_solver.
Qed.

Lemma safeCopy_keys (m : mapref) (k v : string) : preserving keysIn (safeCopy m k v).
Proof.
  intros h a h' Hrun l e He.
  destruct (safeCopy_entries m k v h a h' Hrun l e He) as (e' & He' & Hsub).
  exists e'. split; [done|]. unfold keysIn. by apply subseteq_dom.
Qed.

(** The size of a first-write-wins merge. *)
Lemma size_merge (d s : gmap string string) :
  size (d ∪ s) = size d + size s - size (dom d ∩ dom s).
Proof.
  rewrite <- !(size_dom (D := gset string)), dom_union_L.
  rewrite size_union_alt.
  assert (size (dom s) = size (dom d ∩ dom s) + size (dom s ∖ dom d)) as ->; [|lia].
  rewrite <- size_union by set_solver. f_equal.
  apply set_eq. intros k. destruct (decide (k ∈ dom d)); set_solver.
Qed.

(** ** The contract *)

Lemma heapAfter_Some {A} (r : result A) (h' : Heap) :
  heapAfter r = Some h' → ∃ a, r = Ok a h'.
Proof. destruct r as [a h|]; [|done]. intros [= ->]. by exists a. Qed.

Lemma exec_keeps (P : relation (gmap string string)) `{!PreOrder P} (c : Call) (h h' : Heap) :
  (∀ m k v, preserving P (safeCopy m k v)) →
  (isCopy c = true → ∀ m k v, preserving P (mapStore m k v)) →
  exec c h = Some h' → kept P h h'.
Proof.
  intros Hsafe Hstore Hexec.
  destruct c; simpl in Hexec; apply heapAfter_Some in Hexec as [a Hrun].
  - by apply (preserving_has P SlotAnnotations _ _ _ _ _ _ Hrun).
  - by apply (preserving_has P SlotLabels _ _ _ _ _ _ Hrun).
  - by apply (preserving_hasWithValue P SlotAnnotations _ _ _ _ _ _ _ _ Hrun).
  - by apply (preserving_hasWithValue P SlotLabels _ _ _ _ _ _ _ _ Hrun).
  - by apply (preserving_addOne P SlotAnnotations _ _ _ _ Hsafe _ _ _ Hrun).
  - by apply (preserving_addOne P SlotLabels _ _ _ _ Hsafe _ _ _ Hrun).
  - by apply (preserving_addAll P SlotAnnotations _ _ _ Hsafe _ _ _ Hrun).
  - by apply (preserving_addAll P SlotLabels _ _ _ Hsafe _ _ _ Hrun).
  - by apply (preserving_getWithPrefix P SlotAnnotations _ _ _ _ _ _ Hrun).
  - by apply (preserving_getWithPrefix P SlotLabels _ _ _ _ _ _ Hrun).
  - by apply (preserving_copyByPrefix P SlotLabels _ _ _ _ _ (Hstore eq_refl) _ _ _ Hrun).
  - by apply (preserving_copyByPrefix P SlotAnnotations _ _ _ _ _ (Hstore eq_refl) _ _ _ Hrun).
Qed.

(** C1, as stated, fails: [CopyAnnotationsByPrefix] from the first pod to the
    second with prefix [fo] and replacement [ba] stores the value of [foo]
    under [bao], where the second pod had [old]. *)
Lemma C1_copy_overwrites :
  ¬ NoClobber (CallCopyAnnotationsByPrefix (Some 1%positive) (Some 2%positive) "fo" "ba" [])
      twoPods.
Proof.
  intros H.
  destruct (H (default twoPods (exec (CallCopyAnnotationsByPrefix (Some 1%positive)
                 (Some 2%positive) "fo" "ba" []) twoPods)) eq_refl
              2%positive (list_to_map [("bao", "old")]) "bao" "old" eq_refl eq_refl)
    as (e' & He' & Hk).
  vm_compute in He'. injection He' as <-. vm_compute in Hk. discriminate.
Qed.

(** C1, amended: every exported function other than the two prefix copies
    leaves each entry of each map as it was; the two prefix copies remove no
    key, but may overwrite the value at a destination key. *)
Theorem C1_first_write_wins (c : Call) (h h' : Heap) (l : loc)
    (e : gmap string string) (k v : string) :
  exec c h = Some h' →
  maps h !! l = Some e → e !! k = Some v →
  ∃ e', maps h' !! l = Some e'
        ∧ is_Some (e' !! k)
        ∧ (isCopy c = false → e' !! k = Some v).
Proof.
  intros Hexec Hl Hk.
  destruct (exec_keeps keysIn c h h') with (l := l) (e := e) as (e' & He' & Hsub);
    [apply safeCopy_keys | intros _; apply mapStore_keys | done | done |].
  exists e'. split; [done|]. split.
  - apply elem_of_dom, Hsub, elem_of_dom. by eauto.
  - intros Hc.
    destruct (exec_keeps (⊆) c h h') with (l := l) (e := e) as (e2 & He2 & Hsub2);
      [apply safeCopy_entries | congruence | done | done |].
    assert (e2 = e') as -> by congruence.
    by eapply lookup_weaken.
Qed.

Lemma C1_first_write_wins_witness :
  let c := CallAddAnnotation (Some 2%positive) "bao" "new" [] in
  let h' := default twoPods (exec c twoPods) in
  exec c twoPods = Some h'
  ∧ ∃ e', maps h' !! 2%positive = Some e'
          ∧ is_Some (e' !! "bao")
          ∧ (isCopy c = false → e' !! "bao" = Some "old").
Proof.
  intros c h'. split; [reflexivity|].
  apply (C1_first_write_wins c twoPods h' 2%positive (list_to_map [("bao", "old")])
           "bao" "old");
    reflexivity.
Defined.

(** C2, as stated, fails: an annotation that is already there keeps its
    value, so the query for the new value answers [false]. *)
Lemma C2_add_keeps_old_value :
  ¬ AddThenHas (pod [] [("foo", "old")]) (Some 1%positive) "foo" "new" [] [] [].
Proof.
  intros (h1 & h2 & H1 & H2). vm_compute in H1. injection H1 as <-.
  vm_compute in H2. discriminate.
Qed.

(** It fails on the nil object as well: the add is dropped and the query
    answers [false]. *)
Lemma add_then_has_nil (h : Heap) (k v : string) (order order1 order2 : list string) :
  ¬ AddThenHas h None k v order order1 order2.
Proof.
  intros (h1 & h2 & _ & H2).
  by rewrite (hasWithValue_nil SlotAnnotations) in H2.
Qed.

Lemma add_then_has (sl : slot) (h : Heap) (p : loc) (meta : ObjectMeta) (k v : string)
    (order order1 order2 : list string) :
  objs h !! p = Some meta → validRef h (slotOf sl meta) →
  deref h (slotOf sl meta) !! k = None ∨ deref h (slotOf sl meta) !! k = Some v →
  ∃ h1 h2, addOne sl (Some p) k v order h = Ok tt h1
           ∧ hasWithValue sl (Some p) k v order1 order2 h1 = Ok true h2.
Proof.
  intros Hp Hv Hk.
  destruct (addOne_live sl p meta k v order h Hp Hv) as (h1 & ld & Hadd & Ho & Hm).
  assert (objs h1 !! p = Some (withSlot sl (Some ld) meta)) as Hp1.
  { rewrite Ho. apply lookup_insert_eq. }
  destruct (hasWithValue_live sl p _ k v order1 order2 h1 Hp1) as (b & h2 & Hhas & Hb & _).
  exists h1, h2. split; [done|]. rewrite Hhas. f_equal. apply Hb.
  exists k. split; [|apply HasPrefix_refl].
  rewrite slotOf_withSlot. unfold deref. rewrite Hm. simpl.
  destruct Hk as [Hk|Hk].
  - rewrite lookup_union_r by done. apply lookup_singleton_eq.
  - by apply lookup_union_Some_l.
Qed.

(** C2, amended: for every live object and every key that is not yet among
    its annotations, or is there with the same value, the query after the
    add answers [true]. *)
Theorem C2_add_then_has (h : Heap) (p : loc) (meta : ObjectMeta) (k v : string)
    (order order1 order2 : list string) :
  objs h !! p = Some meta → validRef h (Annotations meta) →
  deref h (Annotations meta) !! k = None ∨ deref h (Annotations meta) !! k = Some v →
  AddThenHas h (Some p) k v order order1 order2.
Proof. apply (add_then_has SlotAnnotations). Qed.

Lemma C2_add_then_has_witness :
  objs (pod [] [("foo", "old")]) !! 1%positive
    = Some (mkObjectMeta (Some 1%positive) (Some 2%positive))
  ∧ AddThenHas (pod [] [("foo", "old")]) (Some 1%positive) "bar" "new" [] [] [].
Proof.
  split; [reflexivity|].
  apply (C2_add_then_has (pod [] [("foo", "old")]) 1%positive
           (mkObjectMeta (Some 1%positive) (Some 2%positive))).
  - reflexivity.
  - simpl. vm_compute. eauto.
  - left. reflexivity.
Defined.

(** C3, as stated, fails: the query key [foo] is answered [true] on a pod
    whose only annotation is [foobar]. *)
Lemma C3_prefix_is_enough :
  ¬ ExistenceQuery String.eqb HasAnnotation Annotations
      (pod [] [("foobar", "x")]) (Some 1%positive) "foo" [].
Proof.
  intros (b & h' & Hrun & Hb). vm_compute in Hrun. injection Hrun as <- <-.
  destruct Hb as [Hb _]. destruct (Hb eq_refl) as (p & meta & k & v & Hp & Hm & Hk & Heq).
  injection Hp as <-. vm_compute in Hm. injection Hm as <-.
  apply String.eqb_eq in Heq as ->. vm_compute in Hk. discriminate.
Qed.

Lemma has_iff (sl : slot) (h : Heap) (object : Object) (key : string) (order : list string) :
  validObject h object →
  ExistenceQuery HasPrefix (has sl) (slotOf sl) h object key order.
Proof.
  intros Hv. destruct object as [p|].
  - destruct Hv as [meta Hp].
    destruct (has_live sl p meta key order h Hp) as (b & h' & Hrun & Hb & _).
    exists b, h'. split; [done|]. rewrite Hb. split.
    + intros (k & v & Hk & Hpre). by exists p, meta, k, v.
    + intros (p' & meta' & k & v & [= <-] & Hp' & Hk & Hpre).
      assert (meta' = meta) as -> by congruence. by exists k, v.
  - unfold ExistenceQuery. rewrite has_nil. eexists _, _. split; [done|]. split; [done|].
    by intros (p & meta & k & v & Hp & _).
Qed.

(** C3, amended: [HasAnnotation] and [HasLabel] return, without error, and
    answer [true] exactly when the object is non-nil and at least one stored
    key starts with the query key; they answer [false] on the nil object. *)
Theorem C3_has_by_prefix (h : Heap) (object : Object) (key : string) (order : list string) :
  validObject h object →
  ExistenceQuery HasPrefix HasAnnotation Annotations h object key order
  ∧ ExistenceQuery HasPrefix HasLabel Labels h object key order.
Proof.
  intros Hv. split.
  - apply (has_iff SlotAnnotations h object key order Hv).
  - apply (has_iff SlotLabels h object key order Hv).
Qed.

Lemma C3_has_by_prefix_witness :
  validObject (pod [] [("foobar", "x")]) (Some 1%positive)
  ∧ ExistenceQuery HasPrefix HasAnnotation Annotations
      (pod [] [("foobar", "x")]) (Some 1%positive) "foo" []
  ∧ ExistenceQuery HasPrefix HasLabel Labels
      (pod [] [("foobar", "x")]) (Some 1%positive) "foo" [].
Proof.
  assert (validObject (pod [] [("foobar", "x")]) (Some 1%positive)) as Hv.
  { simpl. vm_compute. eauto. }
  split; [exact Hv|].
  apply (C3_has_by_prefix (pod [] [("foobar", "x")]) (Some 1%positive) "foo" [] Hv).
Defined.

(** C4, as stated, fails: a prefix copy from the nil object does not
    complete, the call of [GetAnnotations] on the nil interface panics. *)
Lemma C4_copy_from_nil_panics :
  ¬ Swallows (CopyAnnotationsByPrefix None (Some 2%positive) "fo" "ba" []) tt twoPods.
Proof. intros (h' & Hrun & _). discriminate. Qed.

(** The same holds for a nil destination, once the source has the slot. *)
Lemma copy_to_nil_panics :
  CopyLabelsByPrefix (Some 1%positive) None "fo" "ba" [] (pod [("foo", "bar")] []) = Panic.
Proof. reflexivity. Qed.

Lemma copy_total (sl : slot) (h : Heap) (prefix replacementPrefix : string)
    (order : list string) :
  CopyTotal (copyByPrefix sl) (slotOf sl) h prefix replacementPrefix order.
Proof.
  split.
  - intros ps pd ms md Hps Hpd Hv. by eapply copyByPrefix_total.
  - intros ps ms dest Hps Hsl. by eapply copyByPrefix_nil_slot.
Qed.

(** C4, amended: on the nil object the four queries answer [false] and the
    two single adds do nothing, the nil-object error being dropped; the two
    prefix copies have no guard against a nil object: they run to their end
    between two live objects, and do nothing when the slot of the source is
    nil. *)
Theorem C4_nil_objects (h : Heap) (key value prefix replacementPrefix : string)
    (order order' : list string) :
  Swallows (HasAnnotation None key order) false h
  ∧ Swallows (HasLabel None key order) false h
  ∧ Swallows (HasAnnotationWithValue None key value order order') false h
  ∧ Swallows (HasLabelWithValue None key value order order') false h
  ∧ Swallows (AddAnnotation None key value order) tt h
  ∧ Swallows (AddLabel None key value order) tt h
  ∧ CopyTotal CopyAnnotationsByPrefix Annotations h prefix replacementPrefix order
  ∧ CopyTotal CopyLabelsByPrefix Labels h prefix replacementPrefix order.
Proof.
  assert (Untouched h (setMap h (fresh (dom (maps h))) ∅)) as Hu.
  { split; [done|]. simpl. apply insert_subseteq, not_elem_of_dom, is_fresh. }
  repeat split.
  - eexists. split; [apply (has_nil SlotAnnotations) | done].
  - eexists. split; [apply (has_nil SlotLabels) | done].
  - eexists. split; [apply (hasWithValue_nil SlotAnnotations) | done].
  - eexists. split; [apply (hasWithValue_nil SlotLabels) | done].
  - destruct (addOne_nil SlotAnnotations key value order h) as (h' & Hrun & Hu').
    by exists h'.
  - destruct (addOne_nil SlotLabels key value order h) as (h' & Hrun & Hu').
    by exists h'.
  - apply (copy_total SlotAnnotations).
  - apply (copy_total SlotAnnotations).
  - apply (copy_total SlotLabels).
  - apply (copy_total SlotLabels).
Qed.

Lemma C4_nil_objects_witness :
  Swallows (HasAnnotation None "foo" []) false twoPods
  ∧ ∃ h', CopyAnnotationsByPrefix (Some 1%positive) (Some 2%positive) "fo" "ba" [] twoPods
          = Ok tt h'.
Proof.
  pose proof (C4_nil_objects twoPods "foo" "bar" "fo" "ba" [] [])
    as (Hhas & _ & _ & _ & _ & _ & [Hcopy _] & _).
  split; [exact Hhas|].
  apply (Hcopy 1%positive 2%positive (mkObjectMeta None (Some 1%positive))
           (mkObjectMeta None (Some 2%positive))).
  - reflexivity.
  - reflexivity.
  - simpl. vm_compute. eauto.
Defined.

(** C5, as stated, fails: with the empty prefix the slot itself is
    returned, and the slot of a new pod is nil. *)
Lemma C5_empty_prefix_returns_nil :
  ¬ ReturnsMap GetAnnotationsWithPrefix emptyPod (Some 1%positive) "" [].
Proof. intros (l & err & h' & Hrun). discriminate. Qed.

Lemma prefix_read (sl : slot) (h : Heap) (obj : Object) (prefix : string)
    (order : list string) :
  PrefixRead (getWithPrefix sl) (slotOf sl) h obj prefix order.
Proof.
  destruct obj as [p|]; simpl.
  - intros meta Hp. case_decide as Hpre.
    + subst prefix. by apply getWithPrefix_empty.
    + eexists _, _. split; [apply is_fresh|].
      split; [by apply getWithPrefix_filter|]. intros k. apply lookup_prefixed.
  - eexists. split; [apply is_fresh | apply getWithPrefix_nil].
Qed.

(** C5, amended: the claim holds but for the empty prefix, where the value
    of the slot is returned as it is, which is the nil map when the slot is
    nil. *)
Theorem C5_prefix_read (h : Heap) (obj : Object) (prefix : string) (order : list string) :
  PrefixRead GetAnnotationsWithPrefix Annotations h obj prefix order
  ∧ PrefixRead GetLabelsWithPrefix Labels h obj prefix order.
Proof.
  split; [apply (prefix_read SlotAnnotations) | apply (prefix_read SlotLabels)].
Qed.

Lemma C5_prefix_read_witness :
  ∃ l e', GetAnnotationsWithPrefix (Some 1%positive) "ba" []
            (pod [] [("bar", "foo"); ("baz", "qux"); ("quux", "corge")])
          = Ok (Some l, None)
               (setMap (pod [] [("bar", "foo"); ("baz", "qux"); ("quux", "corge")]) l e')
          ∧ e' !! "bar" = Some "foo" ∧ e' !! "baz" = Some "qux" ∧ e' !! "quux" = None.
Proof.
  pose proof (C5_prefix_read (pod [] [("bar", "foo"); ("baz", "qux"); ("quux", "corge")])
                (Some 1%positive) "ba" []) as [Ha _].
  simpl in Ha.
  destruct (Ha (mkObjectMeta (Some 1%positive) (Some 2%positive)) eq_refl)
    as (l & e' & _ & Hrun & He').
  exists l, e'. split; [exact Hrun|]. rewrite !He'. repeat split; reflexivity.
Defined.

(** C6, as stated, fails when the two slots are one map: copying the
    annotations of a pod onto itself with prefix [a] and the empty
    replacement, the iterator reaching [aab] before [ab], the copy of [aab]
    overwrites [ab] before [ab] is copied, and the value of [ab] is lost. *)
Lemma C6_shared_map_loses_entry :
  ¬ CopyByPrefixClaim SlotAnnotations (pod [] [("aab", "1"); ("ab", "2")])
      1%positive 1%positive "a" "" ["aab"; "ab"].
Proof.
  intros H.
  specialize (H (mkObjectMeta (Some 1%positive) (Some 2%positive))
                (mkObjectMeta (Some 1%positive) (Some 2%positive)) eq_refl eq_refl).
  unfold CopyOutcome in H. cbn [slotOf Annotations] in H.
  destruct H as (h' & ld & d' & Hrun & _ & Hm & Hld & Hc & _).
  assert (ld = 2%positive) as -> by (destruct Hld as [[= <-]|[[=] _]]; done).
  specialize (Hc "ab" "2" eq_refl eq_refl).
  assert (maps h' !! 2%positive = Some d') as Hd by (rewrite Hm; apply lookup_insert_eq).
  vm_compute in Hrun. injection Hrun as <-.
  vm_compute in Hd. injection Hd as <-.
  vm_compute in Hc. discriminate.
Qed.

(** C6, amended: the claim holds for two live objects whose slots are not
    one and the same map. *)
Theorem C6_copy_by_prefix (sl : slot) (h : Heap) (ps pd : loc) (ms md : ObjectMeta)
    (prefix replacementPrefix : string) (order : list string) :
  objs h !! ps = Some ms → objs h !! pd = Some md →
  validRef h (slotOf sl ms) → validRef h (slotOf sl md) →
  (slotOf sl ms ≠ None → slotOf sl md ≠ slotOf sl ms) →
  CopyOutcome sl h ps pd ms md prefix replacementPrefix order.
Proof.
  intros Hps Hpd Hvs Hvd Hne. unfold CopyOutcome.
  destruct (slotOf sl ms) as [ls|] eqn:Hsl.
  - destruct (copyByPrefix_live sl ps pd ls ms md prefix replacementPrefix order h)
      as (h' & ld & d' & Hrun & Ho & Hm & Hld & Hc); try done.
    { by apply Hne. }
    exists h', ld, d'. repeat (split; [done|]). split; [|done].
    destruct Hld as [Hld|[Hld ->]]; [by left | right]. split; [done | apply is_fresh].
  - by apply (copyByPrefix_nil_slot sl ps ms).
Qed.

Lemma C6_copy_by_prefix_witness :
  CopyOutcome SlotAnnotations twoPods 1%positive 2%positive
    (mkObjectMeta None (Some 1%positive)) (mkObjectMeta None (Some 2%positive))
    "fo" "ba" [].
Proof.
  apply (C6_copy_by_prefix SlotAnnotations twoPods 1%positive 2%positive).
  - reflexivity.
  - reflexivity.
  - simpl. vm_compute. eauto.
  - simpl. vm_compute. eauto.
  - simpl. intros _ [= ?].
Defined.

(** C10, as stated, fails when the two slots are one map: copying the
    labels of a pod onto itself with the empty prefix and replacement [b],
    the iterator reaching [a] before [ba], the copy of [a] overwrites [ba]
    before [ba] is copied. *)
Lemma C10_shared_map_loses_entry :
  ¬ PrependClaim SlotLabels (pod [("a", "1"); ("ba", "2")] [])
      1%positive 1%positive "b" ["a"; "ba"].
Proof.
  intros H.
  destruct (H (mkObjectMeta (Some 1%positive) (Some 2%positive))
              (mkObjectMeta (Some 1%positive) (Some 2%positive)) 1%positive
              eq_refl eq_refl eq_refl) as (h' & ld & d' & Hrun & Ho & Hm & Hc & _); [done|].
  specialize (Hc "ba" "2" eq_refl).
  assert (Labels <$> objs h' !! 1%positive = Some (Some ld)) as Hld.
  { by rewrite Ho, lookup_insert_eq. }
  assert (maps h' !! ld = Some d') as Hd by (rewrite Hm; apply lookup_insert_eq).
  vm_compute in Hrun. injection Hrun as <-.
  vm_compute in Hld. injection Hld as <-.
  vm_compute in Hd. injection Hd as <-.
  vm_compute in Hc. discriminate.
Qed.

(** C10, amended: the claim holds for two live objects whose slots are not
    one and the same map. *)
Theorem C10_copy_prepends (sl : slot) (h : Heap) (ps pd ls : loc) (ms md : ObjectMeta)
    (replacementPrefix : string) (order : list string) :
  objs h !! ps = Some ms → objs h !! pd = Some md →
  slotOf sl ms = Some ls → replacementPrefix ≠ "" →
  is_Some (maps h !! ls) → validRef h (slotOf sl md) → slotOf sl md ≠ Some ls →
  PrependOutcome sl h ps pd ls md replacementPrefix order.
Proof.
  intros Hps Hpd Hsl _ Hls Hvd Hne.
  destruct (copyByPrefix_live sl ps pd ls ms md "" replacementPrefix order h)
    as (h' & ld & d' & Hrun & Ho & Hm & Hld & Hc1 & Hc2); try done.
  assert (∀ k, renamed "" replacementPrefix k = replacementPrefix +:+ k) as Hren.
  { intros k. by rewrite renamed_prefix by apply HasPrefix_empty. }
  exists h', ld, d'. repeat (split; [done|]). split.
  - intros k v Hk. rewrite <- Hren. apply Hc1; [done | apply HasPrefix_empty].
  - intros k' Hk'. apply Hc2. intros k Hk _. rewrite Hren. by apply Hk'.
Qed.

Lemma C10_copy_prepends_witness :
  PrependOutcome SlotAnnotations twoPods 1%positive 2%positive 1%positive
    (mkObjectMeta None (Some 2%positive)) "x/" [].
Proof.
  apply (C10_copy_prepends SlotAnnotations twoPods 1%positive 2%positive 1%positive
           (mkObjectMeta None (Some 1%positive))).
  - reflexivity.
  - reflexivity.
  - reflexivity.
  - discriminate.
  - vm_compute. eauto.
  - simpl. vm_compute. eauto.
  - simpl. intros [= ?].
Defined.

Lemma addAll_error (sl : slot) (h : Heap) (obj : Object) (entries : mapref)
    (order : list string) :
  liveOrNil h obj → ErrorIffNil (addAll sl) h obj entries order.
Proof.
  intros Hlive. destruct obj as [p|].
  - destruct Hlive as (meta & Hp & Hvl & Hva).
    destruct (addAll_live sl p meta entries order h Hp) as (h' & ld & Hrun & _).
    { by destruct sl. }
    exists None, h'. by repeat split.
  - exists (Some NilObjectError), h. split; [apply addAll_nil|]. by split.
Qed.

(** C7: [AddAnnotations] and [AddLabels] return the error "object cannot
    be nil" on the nil object, and no error on any other object, whatever
    the entries. *)
Theorem C7_error_iff_nil (h : Heap) (obj : Object) (entries : mapref) (order : list string) :
  liveOrNil h obj →
  ErrorIffNil AddAnnotations h obj entries order
  ∧ ErrorIffNil AddLabels h obj entries order.
Proof.
  intros Hlive. split.
  - by apply (addAll_error SlotAnnotations).
  - by apply (addAll_error SlotLabels).
Qed.

Lemma C7_error_iff_nil_witness :
  liveOrNil twoPods (Some 1%positive)
  ∧ ErrorIffNil AddAnnotations twoPods (Some 1%positive) (Some 2%positive) []
  ∧ ErrorIffNil AddLabels twoPods (Some 1%positive) (Some 2%positive) [].
Proof.
  assert (liveOrNil twoPods (Some 1%positive)) as Hlive.
  { exists (mkObjectMeta None (Some 1%positive)). split; [reflexivity|].
    split; [exact I|]. simpl. vm_compute. eauto. }
  split; [exact Hlive|].
  apply (C7_error_iff_nil twoPods (Some 1%positive) (Some 2%positive) [] Hlive).
Defined.

Lemma addAll_merge (sl : slot) (h : Heap) (p : loc) (meta : ObjectMeta) (entries : mapref)
    (order : list string) :
  objs h !! p = Some meta → validRef h (slotOf sl meta) →
  MergeOutcome (addAll sl) (slotOf sl) h p meta entries order.
Proof.
  intros Hp Hv.
  destruct (addAll_live sl p meta entries order h Hp Hv) as (h' & ld & Hrun & Ho & Hm & _).
  exists h', (withSlot sl (Some ld) meta). split; [done|].
  split; [rewrite Ho; apply lookup_insert_eq|].
  assert (deref h' (Some ld) = deref h (slotOf sl meta) ∪ deref h entries) as Hpost.
  { unfold deref at 1. by rewrite Hm, lookup_insert_eq. }
  rewrite slotOf_withSlot, Hpost.
  split; [|split].
  - intros k v Hk. by apply lookup_union_Some_l.
  - intros k v Hk Hnone. by rewrite lookup_union_r.
  - apply size_merge.
Qed.

(** C8: after [AddAnnotations] (and [AddLabels]) on a live object, every
    entry that was there is as it was, every entry of the added map whose
    key was not there is there, and the size is the sum of the two sizes
    less the number of keys in both. *)
Theorem C8_merge (h : Heap) (p : loc) (meta : ObjectMeta) (entries : mapref)
    (order : list string) :
  objs h !! p = Some meta →
  validRef h (Labels meta) → validRef h (Annotations meta) →
  MergeOutcome AddAnnotations Annotations h p meta entries order
  ∧ MergeOutcome AddLabels Labels h p meta entries order.
Proof.
  intros Hp Hvl Hva. split.
  - by apply (addAll_merge SlotAnnotations).
  - by apply (addAll_merge SlotLabels).
Qed.

Lemma C8_merge_witness :
  MergeOutcome AddAnnotations Annotations twoPods 1%positive
    (mkObjectMeta None (Some 1%positive)) (Some 2%positive) []
  ∧ MergeOutcome AddLabels Labels twoPods 1%positive
      (mkObjectMeta None (Some 1%positive)) (Some 2%positive) [].
Proof.
  apply (C8_merge twoPods 1%positive (mkObjectMeta None (Some 1%positive))
           (Some 2%positive) []).
  - reflexivity.
  - exact I.
  - simpl. vm_compute. eauto.
Defined.

Lemma has_empty_key (sl : slot) (h : Heap) (p : loc) (meta : ObjectMeta)
    (order : list string) :
  objs h !! p = Some meta → EmptyKeyQuery (has sl) (slotOf sl) h p meta order.
Proof.
  intros Hp. pose proof (getWithPrefix_empty sl p meta order h Hp) as Hrun.
  exists (negb (size (deref h (slotOf sl meta)) =? 0)%nat). split.
  - destruct sl; cbn [getWithPrefix] in Hrun; cbn [has];
      unfold HasLabel, HasAnnotation, mbind, M_bind, bind; rewrite Hrun;
      unfold mapLen, ret; by destruct (size _ =? 0)%nat.
  - by rewrite negb_true_iff, Nat.eqb_neq, map_size_empty_iff.
Qed.

(** C9: on a live object, [HasAnnotation] (and [HasLabel]) with the empty
    key answers [true] exactly when the map of the slot is not empty. *)
Theorem C9_empty_key (h : Heap) (p : loc) (meta : ObjectMeta) (order : list string) :
  objs h !! p = Some meta →
  EmptyKeyQuery HasAnnotation Annotations h p meta order
  ∧ EmptyKeyQuery HasLabel Labels h p meta order.
Proof.
  intros Hp. split.
  - by apply (has_empty_key SlotAnnotations).
  - by apply (has_empty_key SlotLabels).
Qed.

Lemma C9_empty_key_witness :
  EmptyKeyQuery HasAnnotation Annotations twoPods 1%positive
    (mkObjectMeta None (Some 1%positive)) []
  ∧ EmptyKeyQuery HasLabel Labels twoPods 1%positive
      (mkObjectMeta None (Some 1%positive)) [].
Proof.
  apply (C9_empty_key twoPods 1%positive (mkObjectMeta None (Some 1%positive)) []).
  reflexivity.
Defined.

(** ** Further properties of the package *)

Lemma heap_eq (h h' : Heap) : maps h = maps h' → objs h = objs h' → h = h'.
Proof. destruct h, h'. simpl. by intros -> ->. Qed.

Lemma HasPrefix_trans (s q p : string) :
  HasPrefix s q = true → HasPrefix q p = true → HasPrefix s p = true.
Proof.
  intros [r1 ->]%HasPrefix_spec [r2 ->]%HasPrefix_spec. apply HasPrefix_spec.
  exists (r2 +:+ r1). induction p as [|c p IH]; [done|].
  rewrite !append_cons. by f_equal.
Qed.

Lemma withSlot_withSlot (sl : slot) (m m' : mapref) (meta : ObjectMeta) :
  withSlot sl m (withSlot sl m' meta) = withSlot sl m meta.
Proof. by destruct sl. Qed.

Lemma slotOf_withSlot_ne (sl sl' : slot) (m : mapref) (meta : ObjectMeta) :
  sl' ≠ sl → slotOf sl' (withSlot sl m meta) = slotOf sl' meta.
Proof. by destruct sl, sl'. Qed.

(** X1: [HasAnnotationWithValue] and [HasLabelWithValue] return, and answer
    [true] exactly when the object is non-nil and some stored key that
    starts with the query key holds exactly the value. *)
Theorem X1_has_with_value (sl : slot) (h : Heap) (object : Object) (key value : string)
    (order order' : list string) :
  validObject h object →
  ∃ b h', hasWithValue sl object key value order order' h = Ok b h'
          ∧ (b = true ↔ ∃ p meta k, object = Some p ∧ objs h !! p = Some meta
                                     ∧ deref h (slotOf sl meta) !! k = Some value
                                     ∧ HasPrefix k key = true).
Proof.
  intros Hv. destruct object as [p|].
  - destruct Hv as [meta Hp].
    destruct (hasWithValue_live sl p meta key value order order' h Hp)
      as (b & h' & Hrun & Hb & _).
    exists b, h'. split; [done|]. rewrite Hb. split.
    + intros (k & Hk & Hpre). by exists p, meta, k.
    + intros (p' & meta' & k & [= <-] & Hp' & Hk & Hpre).
      assert (meta' = meta) as -> by congruence. by exists k.
  - rewrite hasWithValue_nil. eexists _, _. split; [done|]. split; [done|].
    by intros (p & meta & k & Hp & _).
Qed.

Lemma X1_has_with_value_witness :
  validObject (pod [] [("bar", "foo"); ("baz", "qux")]) (Some 1%positive)
  ∧ ∃ b h', HasAnnotationWithValue (Some 1%positive) "ba" "qux" [] []
              (pod [] [("bar", "foo"); ("baz", "qux")]) = Ok b h'
            ∧ (b = true ↔ ∃ p meta k,
                 Some 1%positive = Some p
                 ∧ objs (pod [] [("bar", "foo"); ("baz", "qux")]) !! p = Some meta
                 ∧ deref (pod [] [("bar", "foo"); ("baz", "qux")]) (Annotations meta) !! k
                   = Some "qux"
                 ∧ HasPrefix k "ba" = true).
Proof.
  assert (validObject (pod [] [("bar", "foo"); ("baz", "qux")]) (Some 1%positive)) as Hv.
  { simpl. vm_compute. eauto. }
  split; [exact Hv|].
  apply (X1_has_with_value SlotAnnotations _ _ "ba" "qux" [] [] Hv).
Defined.

(** X2: whenever [HasAnnotationWithValue] (or [HasLabelWithValue]) answers
    [true], [HasAnnotation] (or [HasLabel]) with the same key answers [true]
    on the same store, whatever the iteration orders. *)
Theorem X2_value_implies_key (sl : slot) (h h1 : Heap) (object : Object)
    (key value : string) (order order' order'' : list string) :
  validObject h object →
  hasWithValue sl object key value order order' h = Ok true h1 →
  ∃ h2, has sl object key order'' h = Ok true h2.
Proof.
  intros Hv Hrun. destruct object as [p|].
  - destruct Hv as [meta Hp].
    destruct (hasWithValue_live sl p meta key value order order' h Hp)
      as (b & h' & Hrun' & Hb & _).
    rewrite Hrun' in Hrun. injection Hrun as -> ->.
    destruct (proj1 Hb eq_refl) as (k & Hk & Hpre).
    destruct (has_live sl p meta key order'' h Hp) as (b2 & h2 & Hhas & Hb2 & _).
    exists h2. rewrite Hhas. f_equal. apply Hb2. by exists k, value.
  - by rewrite hasWithValue_nil in Hrun.
Qed.

Lemma X2_value_implies_key_witness :
  let h := pod [] [("bar", "foo"); ("baz", "qux")] in
  let h1 := default h (heapAfter (HasAnnotationWithValue (Some 1%positive) "ba" "qux" [] [] h)) in
  HasAnnotationWithValue (Some 1%positive) "ba" "qux" [] [] h = Ok true h1
  ∧ ∃ h2, HasAnnotation (Some 1%positive) "ba" ["baz"] h = Ok true h2.
Proof.
  intros h h1.
  assert (HasAnnotationWithValue (Some 1%positive) "ba" "qux" [] [] h = Ok true h1) as Hrun
    by reflexivity.
  split; [exact Hrun|].
  apply (X2_value_implies_key SlotAnnotations h h1 (Some 1%positive) "ba" "qux" [] [] ["baz"]);
    [|exact Hrun].
  simpl. vm_compute. eauto.
Defined.

(** X3: [AddAnnotations] and [AddLabels] are idempotent: on a live object a
    second call with the same entries returns no error and leaves the store
    exactly as the first call left it, whatever the iteration orders. *)
Theorem X3_add_twice (sl : slot) (h : Heap) (p : loc) (meta : ObjectMeta)
    (entries : mapref) (order order' : list string) :
  objs h !! p = Some meta → validRef h (slotOf sl meta) →
  ∃ h1, addAll sl (Some p) entries order h = Ok None h1
        ∧ addAll sl (Some p) entries order' h1 = Ok None h1.
Proof.
  intros Hp Hv.
  destruct (addAll_live sl p meta entries order h Hp Hv) as (h1 & ld & Hrun & Ho & Hm & _).
  exists h1. split; [done|].
  assert (objs h1 !! p = Some (withSlot sl (Some ld) meta)) as Hp1.
  { rewrite Ho. apply lookup_insert_eq. }
  assert (maps h1 !! ld = Some (deref h (slotOf sl meta) ∪ deref h entries)) as Hld.
  { rewrite Hm. apply lookup_insert_eq. }
  destruct (addAll_live sl p _ entries order' h1 Hp1) as (h2 & ld2 & Hrun2 & Ho2 & Hm2 & Hld2).
  { rewrite slotOf_withSlot. simpl. eauto. }
  rewrite slotOf_withSlot in Hm2, Hld2.
  assert (ld2 = ld) as -> by (destruct Hld2 as [[= <-]|[[=] _]]; done).
  rewrite Hrun2. f_equal. apply heap_eq.
  - rewrite Hm2. apply insert_id. rewrite Hld. f_equal.
    assert (deref h1 (Some ld) = deref h (slotOf sl meta) ∪ deref h entries) as Hd1.
    { unfold deref at 1. by rewrite Hld. }
    destruct (decide (entries = Some ld)) as [->|Hne].
    + rewrite Hd1. symmetry. apply (idemp_L (∪)).
    + rewrite Hd1. assert (deref h1 entries = deref h entries) as ->.
      { destruct entries as [le|]; [|done]. unfold deref.
        rewrite Hm, lookup_insert_ne; [done | congruence]. }
      rewrite <- (assoc_L (∪)). by rewrite (idemp_L (∪)).
  - rewrite Ho2, withSlot_withSlot. by apply insert_id.
Qed.

Lemma X3_add_twice_witness :
  ∃ h1, AddAnnotations (Some 1%positive) (Some 2%positive) [] twoPods = Ok None h1
        ∧ AddAnnotations (Some 1%positive) (Some 2%positive) ["bao"] h1 = Ok None h1.
Proof.
  apply (X3_add_twice SlotAnnotations twoPods 1%positive (mkObjectMeta None (Some 1%positive))).
  - reflexivity.
  - simpl. vm_compute. eauto.
Defined.

(** X4: after [AddAnnotation(O, k, v)] (or [AddLabel]) on a live object,
    [HasAnnotation(O, k)] (or [HasLabel]) answers [true], whatever the
    object held before. *)
Theorem X4_add_then_has_key (sl : slot) (h : Heap) (p : loc) (meta : ObjectMeta)
    (k v : string) (order order' : list string) :
  objs h !! p = Some meta → validRef h (slotOf sl meta) →
  ∃ h1 h2, addOne sl (Some p) k v order h = Ok tt h1
           ∧ has sl (Some p) k order' h1 = Ok true h2.
Proof.
  intros Hp Hv.
  destruct (addOne_live sl p meta k v order h Hp Hv) as (h1 & ld & Hadd & Ho & Hm).
  assert (objs h1 !! p = Some (withSlot sl (Some ld) meta)) as Hp1.
  { rewrite Ho. apply lookup_insert_eq. }
  destruct (has_live sl p _ k order' h1 Hp1) as (b & h2 & Hhas & Hb & _).
  exists h1, h2. split; [done|]. rewrite Hhas. f_equal. apply Hb.
  rewrite slotOf_withSlot. unfold deref. rewrite Hm. simpl.
  assert (is_Some ((deref h (slotOf sl meta) ∪ {[k := v]}) !! k)) as [x Hx].
  { apply lookup_union_is_Some. right. rewrite lookup_singleton_eq. eauto. }
  exists k, x. split; [done | apply HasPrefix_refl].
Qed.

Lemma X4_add_then_has_key_witness :
  ∃ h1 h2, AddAnnotation (Some 2%positive) "bao" "new" [] twoPods = Ok tt h1
           ∧ HasAnnotation (Some 2%positive) "bao" [] h1 = Ok true h2.
Proof.
  apply (X4_add_then_has_key SlotAnnotations twoPods 2%positive
           (mkObjectMeta None (Some 2%positive))).
  - reflexivity.
  - simpl. vm_compute. eauto.
Defined.

(** A loop over a map none of whose keys is still to come does nothing. *)
Lemma rangeLoop_nothing {R} (m : mapref) (body : string → string → M (option R))
    (ks : list string) (seen : gset string) (h : Heap) :
  (∀ k, k ∈ ks → k ∈ seen ∨ deref h m !! k = None) →
  rangeLoop m body ks seen h = Ok None h.
Proof.
  induction ks as [|k ks IH]; intros Hks; simpl; [done|].
  assert (∀ k', k' ∈ ks → k' ∈ seen ∨ deref h m !! k' = None) as Hrest.
  { intros k' Hk'. apply Hks. by apply list_elem_of_further. }
  destruct (decide (k ∈ seen)); [by apply IH|].
  destruct (Hks k (list_elem_of_here _ _)) as [?| ->]; [done | by apply IH].
Qed.

(** A loop whose body panics panics as soon as a key is produced. *)
Lemma rangeLoop_panics {R} (m : mapref) (body : string → string → M (option R))
    (ks : list string) (seen : gset string) (h : Heap) :
  (∀ k v, body k v h = Panic) →
  (∃ k, k ∈ ks ∧ (k ∉ seen) ∧ is_Some (deref h m !! k)) →
  rangeLoop m body ks seen h = Panic.
Proof.
  intros Hbody. induction ks as [|k ks IH]; intros (k0 & Hin & Hnin & Hk0); simpl.
  { by apply elem_of_nil in Hin. }
  apply elem_of_cons in Hin as [->|Hin].
  - rewrite decide_False by done. destruct Hk0 as [v ->]. by rewrite Hbody.
  - destruct (decide (k ∈ seen)); [apply IH; by exists k0|].
    destruct (deref h m !! k) as [v|]; [by rewrite Hbody | apply IH; by exists k0].
Qed.

(** X5: [addEntries] into the nil map panics exactly when the source holds
    an entry; from an empty or nil source it does nothing. *)
Theorem X5_add_into_nil (source : mapref) (order : list string) (h : Heap) :
  addEntries source None order h
  = if decide (deref h source = ∅) then Ok tt h else Panic.
Proof.
  unfold addEntries, rangeDo, range, mbind, M_bind, bind. case_decide as Hs.
  - rewrite rangeLoop_nothing; [done|]. intros k _. right. by rewrite Hs.
  - rewrite rangeLoop_panics; [done| |].
    + intros k v. unfold safeCopy, mapHas, mbind, M_bind, bind. simpl.
      by rewrite lookup_empty, bool_decide_eq_false_2 by (by intros [? ?]).
    + destruct (map_choose _ Hs) as (k & v & Hk). exists k.
      split; [|split; [set_solver | by eauto]].
      apply elem_of_app. right. apply list_elem_of_fmap. exists (k, v).
      split; [done|]. by apply elem_of_map_to_list.
Qed.

(** X6: [addEntries] into a map that exists gives the same store whatever
    the iteration order, and merging a map into itself changes nothing. *)
Theorem X6_add_entries_order (source : mapref) (ld : loc) (order order' : list string)
    (h : Heap) :
  is_Some (maps h !! ld) →
  addEntries source (Some ld) order h = addEntries source (Some ld) order' h
  ∧ addEntries (Some ld) (Some ld) order h = Ok tt h.
Proof.
  intros [d Hd]. rewrite !(addEntries_spec _ ld d) by done. split; [done|].
  f_equal. unfold deref. rewrite Hd. simpl. rewrite (idemp_L (∪)). by apply setMap_id.
Qed.

Lemma X6_add_entries_order_witness :
  is_Some (maps twoPods !! 2%positive)
  ∧ addEntries (Some 1%positive) (Some 2%positive) ["foz"; "foo"] twoPods
    = addEntries (Some 1%positive) (Some 2%positive) ["foo"] twoPods
  ∧ addEntries (Some 2%positive) (Some 2%positive) ["foz"; "foo"] twoPods = Ok tt twoPods.
Proof.
  assert (is_Some (maps twoPods !! 2%positive)) as Hd by (vm_compute; eauto).
  split; [exact Hd|].
  apply (X6_add_entries_order (Some 1%positive) 2%positive ["foz"; "foo"] ["foo"] twoPods Hd).
Defined.

(** X7: the map that [GetAnnotationsWithPrefix] (or [GetLabelsWithPrefix])
    returns for a non-empty prefix is the caller's own: a store into it
    succeeds and changes no object and no map that existed before the
    read. *)
Theorem X7_filtered_is_a_copy (sl : slot) (h : Heap) (p : loc) (meta : ObjectMeta)
    (prefix k v : string) (order : list string) :
  objs h !! p = Some meta → prefix ≠ "" →
  ∃ r h1 h2, getWithPrefix sl (Some p) prefix order h = Ok (r, None) h1
             ∧ mapStore r k v h1 = Ok tt h2
             ∧ objs h2 = objs h
             ∧ ∀ l, is_Some (maps h !! l) → maps h2 !! l = maps h !! l.
Proof.
  intros Hp Hne. eexists _, _, _.
  split; [by apply getWithPrefix_filter|].
  split; [apply mapStore_setMap; simpl; apply lookup_insert_eq|].
  split; [done|]. intros l Hl. simpl. rewrite !lookup_insert_ne; [done| |];
    intros <-; apply elem_of_dom in Hl; by apply is_fresh in Hl.
Qed.

Lemma X7_filtered_is_a_copy_witness :
  ∃ r h1 h2, GetAnnotationsWithPrefix (Some 1%positive) "fo" [] twoPods = Ok (r, None) h1
             ∧ mapStore r "foo" "changed" h1 = Ok tt h2
             ∧ objs h2 = objs twoPods
             ∧ ∀ l, is_Some (maps twoPods !! l) → maps h2 !! l = maps twoPods !! l.
Proof.
  apply (X7_filtered_is_a_copy SlotAnnotations twoPods 1%positive
           (mkObjectMeta None (Some 1%positive)) "fo" "foo" "changed" []).
  - reflexivity.
  - discriminate.
Defined.

(** X8: with the empty prefix the map returned is the live map of the
    object: a store into it is a store into the slot. *)
Theorem X8_empty_prefix_aliases (sl : slot) (h : Heap) (p l : loc) (meta : ObjectMeta)
    (e : gmap string string) (k v : string) (order : list string) :
  objs h !! p = Some meta → slotOf sl meta = Some l → maps h !! l = Some e →
  ∃ r h2, getWithPrefix sl (Some p) "" order h = Ok (r, None) h
          ∧ mapStore r k v h = Ok tt h2
          ∧ objs h2 = objs h
          ∧ deref h2 (slotOf sl meta) = <[k := v]> e.
Proof.
  intros Hp Hsl He. exists (Some l), (setMap h l (<[k := v]> e)).
  split; [rewrite <- Hsl; by apply getWithPrefix_empty|].
  split; [by apply mapStore_setMap|]. split; [done|].
  rewrite Hsl. apply deref_setMap_eq.
Qed.

Lemma X8_empty_prefix_aliases_witness :
  ∃ r h2, GetAnnotationsWithPrefix (Some 1%positive) "" [] twoPods = Ok (r, None) twoPods
          ∧ mapStore r "foo" "changed" twoPods = Ok tt h2
          ∧ objs h2 = objs twoPods
          ∧ deref h2 (Some 1%positive)
            = <["foo" := "changed"]> (list_to_map [("foo", "bar"); ("foz", "qux")]).
Proof.
  apply (X8_empty_prefix_aliases SlotAnnotations twoPods 1%positive 1%positive
           (mkObjectMeta None (Some 1%positive))
           (list_to_map [("foo", "bar"); ("foz", "qux")]) "foo" "changed" []);
    reflexivity.
Defined.

(** X9: filtering the result of [filterByPrefix] again, by a prefix that
    extends the first, gives the entries that the second prefix alone
    selects; in particular filtering twice by one prefix gives what
    filtering once gives. *)
Theorem X9_filter_refines (src : mapref) (p q : string) (order order' : list string)
    (h : Heap) :
  p ≠ "" → HasPrefix q p = true →
  ∃ r1 h1 r2 h2, filterByPrefix src p order h = Ok r1 h1
                 ∧ filterByPrefix r1 q order' h1 = Ok r2 h2
                 ∧ deref h1 r1 = prefixed p (deref h src)
                 ∧ deref h2 r2 = prefixed q (deref h src).
Proof.
  intros Hp Hqp.
  assert ((String.length p =? 0)%nat = false) as Hlp.
  { apply not_true_iff_false. by rewrite length_zero_empty. }
  assert ((String.length q =? 0)%nat = false) as Hlq.
  { apply not_true_iff_false. rewrite length_zero_empty. intros ->.
    apply HasPrefix_spec in Hqp as [r Hr]. by destruct p. }
  eexists _, _, _, _. split; [by apply filterByPrefix_spec|].
  split; [by apply filterByPrefix_spec|].
  split; [apply deref_setMap_eq|].
  rewrite !deref_setMap_eq. apply map_eq. intros i. rewrite !lookup_prefixed.
  destruct (HasPrefix i q) eqn:Hiq; [|done].
  by rewrite (HasPrefix_trans i q p).
Qed.

Lemma X9_filter_refines_witness :
  ∃ r1 h1 r2 h2, filterByPrefix (Some 1%positive) "fo" [] twoPods = Ok r1 h1
                 ∧ filterByPrefix r1 "foz" [] h1 = Ok r2 h2
                 ∧ deref h1 r1 = prefixed "fo" (deref twoPods (Some 1%positive))
                 ∧ deref h2 r2 = prefixed "foz" (deref twoPods (Some 1%positive)).
Proof.
  apply (X9_filter_refines (Some 1%positive) "fo" "foz" [] [] twoPods).
  - discriminate.
  - reflexivity.
Defined.

(** X10: [copyWithNewPrefix] with the replacement equal to the prefix,
    between two different maps, leaves in the destination the entries of
    the source whose key starts with the prefix, over what the destination
    held: on a key of both the value of the source wins. *)
Theorem X10_copy_without_rename (src : mapref) (ld : loc) (d : gmap string string)
    (prefix : string) (order : list string) (h : Heap) :
  maps h !! ld = Some d → src ≠ Some ld →
  copyWithNewPrefix src (Some ld) prefix prefix order h
  = Ok tt (setMap h ld (prefixed prefix (deref h src) ∪ d)).
Proof.
  intros Hd Hsrc.
  destruct (copyWithNewPrefix_spec src ld d prefix prefix order h Hd Hsrc)
    as (d' & -> & Hc1 & Hc2).
  assert (∀ k, renamed prefix prefix k = k) as Hren.
  { intros k. unfold renamed. by rewrite String.eqb_refl. }
  do 2 f_equal. apply map_eq. intros i. rewrite lookup_union, lookup_prefixed.
  destruct (HasPrefix i prefix) eqn:Hp; [destruct (deref h src !! i) as [v|] eqn:Hi|].
  - rewrite <- (Hren i), (Hc1 i v Hi Hp). by destruct (d !! renamed prefix prefix i).
  - rewrite Hc2; [by destruct (d !! i)|]. intros k [v Hk] _. rewrite Hren. congruence.
  - rewrite Hc2; [by destruct (d !! i)|]. intros k _ Hk. rewrite Hren. congruence.
Qed.

Lemma X10_copy_without_rename_witness :
  copyWithNewPrefix (Some 1%positive) (Some 2%positive) "fo" "fo" ["foz"] twoPods
  = Ok tt (setMap twoPods 2%positive
             (prefixed "fo" (deref twoPods (Some 1%positive)) ∪ list_to_map [("bao", "old")])).
Proof.
  apply (X10_copy_without_rename (Some 1%positive) 2%positive
           (list_to_map [("bao", "old")]) "fo" ["foz"] twoPods).
  - reflexivity.
  - discriminate.
Defined.

(** X11: from a live source object, [CopyAnnotationsByPrefix] (or
    [CopyLabelsByPrefix]) panics exactly when the source has the slot and
    the destination is the nil object. *)
Theorem X11_copy_faults (sl : slot) (h : Heap) (ps : loc) (ms : ObjectMeta) (dest : Object)
    (prefix replacementPrefix : string) (order : list string) :
  objs h !! ps = Some ms → liveOrNil h dest →
  copyByPrefix sl (Some ps) dest prefix replacementPrefix order h = Panic
  ↔ slotOf sl ms ≠ None ∧ dest = None.
Proof.
  intros Hps Hdest. destruct (slotOf sl ms) as [ls|] eqn:Hsl.
  - destruct dest as [pd|].
    + destruct Hdest as (md & Hpd & Hvl & Hva).
      destruct (copyByPrefix_total sl ps pd ms md prefix replacementPrefix order h)
        as (h' & ->); [done | done | by destruct sl |].
      split; [done | by intros [_ ?]].
    + rewrite (copyByPrefix_nil_dest sl ps ls ms) by done. by split.
  - rewrite (copyByPrefix_nil_slot sl ps ms) by done. split; [done | by intros [? _]].
Qed.

Lemma X11_copy_faults_witness :
  liveOrNil twoPods None
  ∧ (CopyAnnotationsByPrefix (Some 1%positive) None "fo" "ba" [] twoPods = Panic
     ↔ Some 1%positive ≠ None ∧ (None : Object) = None).
Proof.
  split; [exact I|].
  apply (X11_copy_faults SlotAnnotations twoPods 1%positive
           (mkObjectMeta None (Some 1%positive)) None "fo" "ba" []).
  - reflexivity.
  - exact I.
Defined.

(** X12: [AddAnnotations] (or [AddLabels]) on a live object touches only
    the slot it is about: every other object, the other slot of the object
    and every map but the map of the slot are as they were. *)
Theorem X12_add_frame (sl : slot) (h : Heap) (p : loc) (meta : ObjectMeta)
    (entries : mapref) (order : list string) :
  objs h !! p = Some meta → validRef h (slotOf sl meta) →
  ∃ h' meta' ld,
    addAll sl (Some p) entries order h = Ok None h'
    ∧ objs h' !! p = Some meta' ∧ slotOf sl meta' = Some ld
    ∧ (∀ sl', sl' ≠ sl → slotOf sl' meta' = slotOf sl' meta)
    ∧ (∀ q, q ≠ p → objs h' !! q = objs h !! q)
    ∧ (∀ l, l ≠ ld → maps h' !! l = maps h !! l).
Proof.
  intros Hp Hv.
  destruct (addAll_live sl p meta entries order h Hp Hv) as (h' & ld & Hrun & Ho & Hm & _).
  exists h', (withSlot sl (Some ld) meta), ld. split; [done|].
  split; [rewrite Ho; apply lookup_insert_eq|]. split; [apply slotOf_withSlot|].
  split; [intros sl' Hne; by apply slotOf_withSlot_ne|].
  split.
  - intros q Hq. by rewrite Ho, lookup_insert_ne.
  - intros l Hl. by rewrite Hm, lookup_insert_ne.
Qed.

Lemma X12_add_frame_witness :
  ∃ h' meta' ld,
    AddLabels (Some 1%positive) (Some 2%positive) [] twoPods = Ok None h'
    ∧ objs h' !! 1%positive = Some meta' ∧ Labels meta' = Some ld
    ∧ (∀ sl', sl' ≠ SlotLabels →
         slotOf sl' meta' = slotOf sl' (mkObjectMeta None (Some 1%positive)))
    ∧ (∀ q, q ≠ 1%positive → objs h' !! q = objs twoPods !! q)
    ∧ (∀ l, l ≠ ld → maps h' !! l = maps twoPods !! l).
Proof.
  apply (X12_add_frame SlotLabels twoPods 1%positive (mkObjectMeta None (Some 1%positive))
           (Some 2%positive) []).
  - reflexivity.
  - exact I.
Defined.

(** X13: the key under which [copyWithNewPrefix] stores an entry whose key
    starts with the prefix starts with the replacement prefix, and renaming
    it back gives the key of the source. *)
Theorem X13_rename_round_trip (prefix replacementPrefix key : string) :
  HasPrefix key prefix = true →
  HasPrefix (renamed prefix replacementPrefix key) replacementPrefix = true
  ∧ renamed replacementPrefix prefix (renamed prefix replacementPrefix key) = key.
Proof.
  intros Hp. rewrite (renamed_prefix prefix replacementPrefix key Hp).
  assert (HasPrefix (replacementPrefix +:+ sliceFrom (String.length prefix) key)
            replacementPrefix = true) as Hq.
  { apply HasPrefix_spec. by eexists. }
  split; [done|].
  rewrite (renamed_prefix _ _ _ Hq), sliceFrom_app. symmetry. by apply HasPrefix_drop.
Qed.

Lemma X13_rename_round_trip_witness :
  HasPrefix "old.io/name" "old.io/" = true
  ∧ HasPrefix (renamed "old.io/" "new.example/" "old.io/name") "new.example/" = true
  ∧ renamed "new.example/" "old.io/" (renamed "old.io/" "new.example/" "old.io/name")
    = "old.io/name".
Proof.
  split; [reflexivity|].
  apply (X13_rename_round_trip "old.io/" "new.example/" "old.io/name"). reflexivity.
Defined.

(** X14: after a prefix copy between two live objects whose slots are
    different maps, from a source that holds a key with the prefix, the
    existence query on the destination with the replacement prefix answers
    [true]. *)
Theorem X14_copy_then_has (sl : slot) (h : Heap) (ps pd ls : loc) (ms md : ObjectMeta)
    (prefix replacementPrefix k v : string) (order order' : list string) :
  objs h !! ps = Some ms → objs h !! pd = Some md →
  slotOf sl ms = Some ls → is_Some (maps h !! ls) →
  validRef h (slotOf sl md) → slotOf sl md ≠ Some ls →
  deref h (Some ls) !! k = Some v → HasPrefix k prefix = true →
  ∃ h1 h2, copyByPrefix sl (Some ps) (Some pd) prefix replacementPrefix order h = Ok tt h1
           ∧ has sl (Some pd) replacementPrefix order' h1 = Ok true h2.
Proof.
  intros Hps Hpd Hsl Hls Hvd Hne Hk Hpre.
  destruct (copyByPrefix_live sl ps pd ls ms md prefix replacementPrefix order h)
    as (h1 & ld & d' & Hrun & Ho & Hm & _ & Hc1 & _); try done.
  assert (objs h1 !! pd = Some (withSlot sl (Some ld) md)) as Hpd1.
  { rewrite Ho. apply lookup_insert_eq. }
  destruct (has_live sl pd _ replacementPrefix order' h1 Hpd1) as (b & h2 & Hhas & Hb & _).
  exists h1, h2. split; [done|]. rewrite Hhas. f_equal. apply Hb.
  exists (renamed prefix replacementPrefix k), v. split.
  - rewrite slotOf_withSlot. unfold deref. rewrite Hm, lookup_insert_eq. simpl.
    by apply Hc1.
  - rewrite renamed_prefix by done. apply HasPrefix_spec. by eexists.
Qed.

Lemma X14_copy_then_has_witness :
  ∃ h1 h2, CopyAnnotationsByPrefix (Some 1%positive) (Some 2%positive) "fo" "ba" [] twoPods
           = Ok tt h1
           ∧ HasAnnotation (Some 2%positive) "ba" [] h1 = Ok true h2.
Proof.
  apply (X14_copy_then_has SlotAnnotations twoPods 1%positive 2%positive 1%positive
           (mkObjectMeta None (Some 1%positive)) (mkObjectMeta None (Some 2%positive))
           "fo" "ba" "foz" "qux").
  - reflexivity.
  - reflexivity.
  - reflexivity.
  - vm_compute. eauto.
  - simpl. vm_compute. eauto.
  - simpl. intros [= ?].
  - reflexivity.
  - reflexivity.
Defined.

(** The outcome of a prefix copy determines the destination. *)
Lemma Copied_unique (prefix replacementPrefix : string) (s d d1 d2 : gmap string string) :
  Copied prefix replacementPrefix s d d1 → Copied prefix replacementPrefix s d d2 →
  d1 = d2.
Proof.
  intros [Ha1 Hb1] [Ha2 Hb2]. apply map_eq. intros i.
  destruct (decide (set_Exists
              (λ k, HasPrefix k prefix = true ∧ renamed prefix replacementPrefix k = i)
              (dom s))) as [(k & Hin & Hp & Hren)|Hno].
  - apply elem_of_dom in Hin as [v Hk]. rewrite <- Hren.
    by rewrite (Ha1 k v Hk Hp), (Ha2 k v Hk Hp).
  - assert (∀ k, is_Some (s !! k) → HasPrefix k prefix = true →
                 renamed prefix replacementPrefix k ≠ i) as Hfree.
    { intros k Hk Hp Hren. apply Hno. exists k. split; [by apply elem_of_dom | done]. }
    by rewrite (Hb1 i Hfree), (Hb2 i Hfree).
Qed.

(** X15: between two live objects whose slots are different maps, a prefix
    copy gives the same store whatever the iteration order. *)
Theorem X15_copy_order (sl : slot) (h : Heap) (ps pd : loc) (ms md : ObjectMeta)
    (prefix replacementPrefix : string) (order order' : list string) :
  objs h !! ps = Some ms → objs h !! pd = Some md →
  validRef h (slotOf sl ms) → validRef h (slotOf sl md) →
  (slotOf sl ms ≠ None → slotOf sl md ≠ slotOf sl ms) →
  copyByPrefix sl (Some ps) (Some pd) prefix replacementPrefix order h
  = copyByPrefix sl (Some ps) (Some pd) prefix replacementPrefix order' h.
Proof.
  intros Hps Hpd Hvs Hvd Hne. destruct (slotOf sl ms) as [ls|] eqn:Hsl.
  - destruct (copyByPrefix_live sl ps pd ls ms md prefix replacementPrefix order h)
      as (h1 & ld1 & d1 & -> & Ho1 & Hm1 & Hld1 & Hc1); try done.
    { by apply Hne. }
    destruct (copyByPrefix_live sl ps pd ls ms md prefix replacementPrefix order' h)
      as (h2 & ld2 & d2 & -> & Ho2 & Hm2 & Hld2 & Hc2); try done.
    { by apply Hne. }
    assert (ld2 = ld1) as ->.
    { destruct Hld1 as [H1|[H1 ->]], Hld2 as [H2|[H2 ->]]; congruence. }
    rewrite (Copied_unique _ _ _ _ _ _ Hc2 Hc1) in Hm2.
    f_equal. apply heap_eq; congruence.
  - by rewrite !(copyByPrefix_nil_slot sl ps ms).
Qed.

Lemma X15_copy_order_witness :
  CopyAnnotationsByPrefix (Some 1%positive) (Some 2%positive) "fo" "ba" ["foz"; "foo"] twoPods
  = CopyAnnotationsByPrefix (Some 1%positive) (Some 2%positive) "fo" "ba" ["foo"] twoPods.
Proof.
  apply (X15_copy_order SlotAnnotations twoPods 1%positive 2%positive
           (mkObjectMeta None (Some 1%positive)) (mkObjectMeta None (Some 2%positive))).
  - reflexivity.
  - reflexivity.
  - simpl. vm_compute. eauto.
  - simpl. vm_compute. eauto.
  - simpl. intros _ [= ?].
Defined.

(** X16: a bulk add never turns an existence query from [true] to [false]:
    when [HasAnnotation] (or [HasLabel]) answers [true] on a live object, it
    still does after [AddAnnotations] (or [AddLabels]) of any entries. *)
Theorem X16_has_survives_add (sl : slot) (h h0 : Heap) (p : loc) (meta : ObjectMeta)
    (key : string) (entries : mapref) (order order' order'' : list string) :
  objs h !! p = Some meta → validRef h (slotOf sl meta) →
  has sl (Some p) key order h = Ok true h0 →
  ∃ h1 h2, addAll sl (Some p) entries order' h = Ok None h1
           ∧ has sl (Some p) key order'' h1 = Ok true h2.
Proof.
  intros Hp Hv Hhas.
  destruct (has_live sl p meta key order h Hp) as (b & h' & Hrun & Hb & _).
  rewrite Hrun in Hhas. injection Hhas as -> ->.
  destruct (proj1 Hb eq_refl) as (k & v & Hk & Hpre).
  destruct (addAll_live sl p meta entries order' h Hp Hv) as (h1 & ld & Hadd & Ho & Hm & _).
  assert (objs h1 !! p = Some (withSlot sl (Some ld) meta)) as Hp1.
  { rewrite Ho. apply lookup_insert_eq. }
  destruct (has_live sl p _ key order'' h1 Hp1) as (b2 & h2 & Hhas2 & Hb2 & _).
  exists h1, h2. split; [done|]. rewrite Hhas2. f_equal. apply Hb2.
  exists k, v. split; [|done].
  rewrite slotOf_withSlot. unfold deref at 1. rewrite Hm, lookup_insert_eq. simpl.
  by apply lookup_union_Some_l.
Qed.

Lemma X16_has_survives_add_witness :
  let h0 := default twoPods (heapAfter (HasAnnotation (Some 2%positive) "ba" [] twoPods)) in
  HasAnnotation (Some 2%positive) "ba" [] twoPods = Ok true h0
  ∧ ∃ h1 h2, AddAnnotations (Some 2%positive) (Some 1%positive) [] twoPods = Ok None h1
             ∧ HasAnnotation (Some 2%positive) "ba" [] h1 = Ok true h2.
Proof.
  intros h0.
  assert (HasAnnotation (Some 2%positive) "ba" [] twoPods = Ok true h0) as Hrun by reflexivity.
  split; [exact Hrun|].
  apply (X16_has_survives_add SlotAnnotations twoPods h0 2%positive
           (mkObjectMeta None (Some 2%positive)) "ba" (Some 1%positive) [] [] []);
    [reflexivity | | exact Hrun].
  simpl. vm_compute. eauto.
Defined.

(** X17: of two [safeCopy] calls for one key into a map that exists, the
    first wins: the second changes nothing, and the key holds the value it
    had before, or the first value when it was not there. *)
Theorem X17_safe_copy_first_wins (l : loc) (e : gmap string string) (k v v' : string)
    (h : Heap) :
  maps h !! l = Some e →
  ∃ h1, safeCopy (Some l) k v h = Ok tt h1
        ∧ safeCopy (Some l) k v' h1 = Ok tt h1
        ∧ deref h1 (Some l) !! k = Some (default v (e !! k))
        ∧ ∀ k', k' ≠ k → deref h1 (Some l) !! k' = e !! k'.
Proof.
  intros He. unfold safeCopy, mapHas, mbind, M_bind, bind.
  assert (deref h (Some l) = e) as Hd by (unfold deref; by rewrite He).
  rewrite Hd. destruct (e !! k) as [x|] eqn:Hk.
  - exists h. rewrite Hd, Hk, bool_decide_eq_true_2 by eauto. simpl.
    by repeat split.
  - rewrite bool_decide_eq_false_2 by (by intros [? ?]). cbn [negb].
    rewrite (mapStore_setMap _ _ e) by done. eexists. split; [done|].
    rewrite deref_setMap_eq, lookup_insert_eq, bool_decide_eq_true_2 by eauto.
    split; [done|]. split; [done|]. intros k' Hne. by rewrite lookup_insert_ne.
Qed.

Lemma X17_safe_copy_first_wins_witness :
  ∃ h1, safeCopy (Some 2%positive) "foo" "bar" twoPods = Ok tt h1
        ∧ safeCopy (Some 2%positive) "foo" "other" h1 = Ok tt h1
        ∧ deref h1 (Some 2%positive) !! "foo"
          = Some (default "bar" ((list_to_map [("bao", "old")] : gmap string string) !! "foo"))
        ∧ ∀ k', k' ≠ "foo" →
            deref h1 (Some 2%positive) !! k'
            = (list_to_map [("bao", "old")] : gmap string string) !! k'.
Proof.
  apply (X17_safe_copy_first_wins 2%positive (list_to_map [("bao", "old")])
           "foo" "bar" "other" twoPods).
  reflexivity.
Defined.

(** X18: [AddAnnotation] (or [AddLabel]) on a live object whose slot is nil
    creates the slot, and the slot then holds the new entry and nothing
    else. *)
Theorem X18_add_creates_slot (sl : slot) (h : Heap) (p : loc) (meta : ObjectMeta)
    (k v : string) (order : list string) :
  objs h !! p = Some meta → slotOf sl meta = None →
  ∃ h1 meta1 l, addOne sl (Some p) k v order h = Ok tt h1
                ∧ objs h1 !! p = Some meta1 ∧ slotOf sl meta1 = Some l
                ∧ maps h1 !! l = Some {[k := v]}.
Proof.
  intros Hp Hsl.
  destruct (addOne_live sl p meta k v order h Hp) as (h1 & ld & Hadd & Ho & Hm).
  { by rewrite Hsl. }
  exists h1, (withSlot sl (Some ld) meta), ld. split; [done|].
  split; [rewrite Ho; apply lookup_insert_eq|]. split; [apply slotOf_withSlot|].
  rewrite Hm, Hsl. simpl. by rewrite (left_id_L ∅ (∪)).
Qed.

Lemma X18_add_creates_slot_witness :
  ∃ h1 meta1 l, AddAnnotation (Some 1%positive) "foo" "bar" [] emptyPod = Ok tt h1
                ∧ objs h1 !! 1%positive = Some meta1 ∧ Annotations meta1 = Some l
                ∧ maps h1 !! l = Some {[ "foo" := "bar" ]}.
Proof.
  apply (X18_add_creates_slot SlotAnnotations emptyPod 1%positive (mkObjectMeta None None));
    reflexivity.
Defined.

(** X19: what a bulk add puts into a live object whose slot is nil, the
    prefix read gets back: after [AddAnnotations] (or [AddLabels]) of the
    entries, [GetAnnotationsWithPrefix] (or [GetLabelsWithPrefix]) returns,
    without error, a map that holds exactly the entries whose key starts
    with the prefix. *)
Theorem X19_add_then_read (sl : slot) (h : Heap) (p : loc) (meta : ObjectMeta)
    (entries : mapref) (prefix : string) (order order' : list string) :
  objs h !! p = Some meta → slotOf sl meta = None →
  ∃ h1 r h2, addAll sl (Some p) entries order h = Ok None h1
             ∧ getWithPrefix sl (Some p) prefix order' h1 = Ok (r, None) h2
             ∧ deref h2 r = prefixed prefix (deref h entries).
Proof.
  intros Hp Hsl.
  destruct (addAll_live sl p meta entries order h Hp) as (h1 & ld & Hadd & Ho & Hm & _).
  { by rewrite Hsl. }
  assert (objs h1 !! p = Some (withSlot sl (Some ld) meta)) as Hp1.
  { rewrite Ho. apply lookup_insert_eq. }
  destruct (getWithPrefix_live sl p _ prefix order' h1 Hp1) as (r & h2 & Hget & Hr & _).
  exists h1, r, h2. split; [done|]. split; [done|].
  rewrite Hr, slotOf_withSlot. f_equal. unfold deref at 1.
  rewrite Hm, lookup_insert_eq, Hsl. simpl. by rewrite (left_id_L ∅ (∪)).
Qed.

Lemma X19_add_then_read_witness :
  ∃ h1 r h2, AddLabels (Some 1%positive) (Some 1%positive) [] twoPods = Ok None h1
             ∧ GetLabelsWithPrefix (Some 1%positive) "foz" [] h1 = Ok (r, None) h2
             ∧ deref h2 r = prefixed "foz" (deref twoPods (Some 1%positive)).
Proof.
  apply (X19_add_then_read SlotLabels twoPods 1%positive (mkObjectMeta None (Some 1%positive))
           (Some 1%positive) "foz" [] []);
    reflexivity.
Defined.
